(** * Byte-level BPE trace engine (bpe.ts): shallow embedding and properties

    The development follows the source file top-down: the byte/unicode symbol
    table, the UTF-16 / UTF-8 conversions performed by [TextEncoder], the
    GPT-2 pre-tokenisation pattern run by [String.prototype.match], the pair
    counting and merge passes, and the main loop of [runBPE].

    JavaScript strings are sequences of UTF-16 code units; they are modelled
    as [list Z].  A [Token] is such a string. *)

From Stdlib Require Import ZArith List Lia Bool.
From Stdlib Require String.
From stdpp Require Import base option list numbers gmap.
Import String.StringSyntax.

Set Default Proof Using "Type".

(** ** Data model (bpe.types.ts) *)

Abbreviation Token := (list Z) (only parsing).

Record BPEStep := mkStep {
  stepIndex : nat;
  mergedPair : option (list Token);
  frequency : option nat;
  newToken : option Token;
  tokens : list Token
}.

Record BPEResult := mkResult { steps : list BPEStep }.

(** A JavaScript string value: every code unit is a 16-bit number. *)
Definition js_string (s : list Z) : Prop := Forall (fun u => 0 <= u < 65536)%Z s.

(** ** Constants *)

(** [const PAIR_SEP = "\0"] *)
Definition PAIR_SEP : Z := 0%Z.

(** ** bytesToUnicode *)

(** [String.fromCharCode(c)]: the one-unit string holding [c] as a uint16. *)
Definition fromCharCode (c : Z) : Token := [(c mod 65536)%Z].

(** [for (let i = lo; i <= hi; i++) { bs.push(i); cs.push(i); }] *)
Definition pushRange (lo hi : Z) (st : list Z * list Z) : list Z * list Z :=
  foldl (fun '(bs, cs) i => (bs ++ [i], cs ++ [i])) st (seqZ lo (hi - lo + 1)).

(** The loop over [b = 0 .. 255] that appends the bytes not yet in [bs]. *)
Definition pushRemaining (bsSet : gset Z) (st : list Z * list Z * Z)
  : list Z * list Z * Z :=
  foldl (fun '(bs, cs, n) b =>
           if decide (b ∈ bsSet) then (bs, cs, n)
           else (bs ++ [b], cs ++ [256 + n], n + 1))%Z
        st (seqZ 0 256).

(** The final loop [result.set(bs[i], String.fromCharCode(cs[i]))]. *)
Definition fillTable (bs cs : list Z) : gmap Z (list Z) :=
  foldl (fun (result : gmap Z (list Z)) i =>
           match bs !! i, cs !! i with
           | Some b, Some c => <[b := fromCharCode c]> result
           | _, _ => result
           end)
        ∅ (seq 0 (length bs)).

Definition bytesToUnicode : gmap Z (list Z) :=
  let st0 : list Z * list Z := ([], []) in
  (* "!" = 33, "~" = 126 *)
  let st1 := pushRange 33 126 st0 in
  (* "¡" = 161, "¬" = 172 *)
  let st2 := pushRange 161 172 st1 in
  (* "®" = 174, "ÿ" = 255 *)
  let st3 := pushRange 174 255 st2 in
  let bsSet : gset Z := list_to_set (fst st3) in
  let '(bs, cs, _) := pushRemaining bsSet (st3, 0%Z) in
  fillTable bs cs.

(** [export const BYTE_TO_UNICODE = bytesToUnicode();] *)
Definition BYTE_TO_UNICODE : gmap Z (list Z) := Eval vm_compute in bytesToUnicode.

(** The construction rule as the specification words it. *)
Definition visibleByte (b : Z) : bool :=
  ((33 <=? b) && (b <=? 126) || (161 <=? b) && (b <=? 172)
   || (174 <=? b) && (b <=? 255))%Z.

Definition specTable (b : Z) : Z :=
  if visibleByte b then b
  else (256 + Z.of_nat (length (filter (fun x => visibleByte x = false) (seqZ 0 b))))%Z.

(** ** TextEncoder: UTF-16 decoding and UTF-8 encoding *)

Definition isHighSurrogate (u : Z) : bool := ((0xD800 <=? u) && (u <=? 0xDBFF))%Z.
Definition isLowSurrogate (u : Z) : bool := ((0xDC00 <=? u) && (u <=? 0xDFFF))%Z.

(** The code points of a string: a high surrogate followed by a low one is a
    single supplementary code point, any other code unit stands for itself.
    Both the [u]-flag matcher and [TextEncoder] read strings this way. *)
Fixpoint codePoints (s : list Z) : list Z :=
  match s with
  | [] => []
  | h :: rest =>
      match rest with
      | l :: rest' =>
          if isHighSurrogate h && isLowSurrogate l
          then (0x10000 + (h - 0xD800) * 0x400 + (l - 0xDC00))%Z :: codePoints rest'
          else h :: codePoints rest
      | [] => [h]
      end
  end.

(** The code units of one code point, and of a sequence of them (the
    substring of the subject that a match covers). *)
Definition codeUnit (c : Z) : list Z :=
  if (c <? 0x10000)%Z then [c]
  else [(0xD800 + (c - 0x10000) / 0x400)%Z; (0xDC00 + (c - 0x10000) mod 0x400)%Z].

Definition codeUnits (cps : list Z) : list Z := flat_map codeUnit cps.

(** Unpaired surrogates are replaced by U+FFFD before encoding. *)
Definition scalarValue (c : Z) : Z :=
  if isHighSurrogate c || isLowSurrogate c then 0xFFFD%Z else c.

Definition utf8 (c : Z) : list Z :=
  if (c <? 0x80)%Z then [c]
  else if (c <? 0x800)%Z then
    [Z.lor 0xC0 (Z.shiftr c 6); Z.lor 0x80 (Z.land c 0x3F)]
  else if (c <? 0x10000)%Z then
    [Z.lor 0xE0 (Z.shiftr c 12); Z.lor 0x80 (Z.land (Z.shiftr c 6) 0x3F);
     Z.lor 0x80 (Z.land c 0x3F)]
  else
    [Z.lor 0xF0 (Z.shiftr c 18); Z.lor 0x80 (Z.land (Z.shiftr c 12) 0x3F);
     Z.lor 0x80 (Z.land (Z.shiftr c 6) 0x3F); Z.lor 0x80 (Z.land c 0x3F)].

(** [TEXT_ENCODER.encode(s)] as the list of its bytes. *)
Definition TextEncoder_encode (s : list Z) : list Z :=
  flat_map (fun c => utf8 (scalarValue c)) (codePoints s).

(** ** encodeChunk *)

(** [BYTE_TO_UNICODE.get(b)!]: the table holds every byte value (lemma
    [BYTE_TO_UNICODE_lookup]), so the absent case is never taken on the
    bytes of an encoded string. *)
Definition byteToken (b : Z) : Token := default [] (BYTE_TO_UNICODE !! b).

Definition encodeChunk (chunk : list Z) : list Token :=
  map byteToken (TextEncoder_encode chunk).

(** ** The pre-tokenisation pattern

    [GPT2_PAT] uses only literals, character classes, sequencing, ordered
    alternation, a greedy optional item, greedy [+] over a character class
    and one negative lookahead.  The matcher below is the backtracking
    matcher of the language for this fragment: [matchRe r s k] matches [r]
    at the head of [s] and hands the remaining input to the continuation
    [k]; when [k] fails the matcher tries the next choice. *)

Inductive regex :=
| Chr (p : Z -> bool)
| Seq (r1 r2 : regex)
| Alt (r1 r2 : regex)
| Opt (r : regex)
| Plus (p : Z -> bool)
| NotAhead (r : regex).

(** Greedy [p*]: take one more character when that leads to a match. *)
Fixpoint matchStar {A} (p : Z -> bool) (s : list Z) (k : list Z -> option A)
  : option A :=
  match s with
  | c :: s' =>
      if p c then
        match matchStar p s' k with
        | Some x => Some x
        | None => k s
        end
      else k s
  | [] => k s
  end.

Fixpoint matchRe (r : regex) {A} (s : list Z) (k : list Z -> option A)
  : option A :=
  match r with
  | Chr p =>
      match s with
      | c :: s' => if p c then k s' else None
      | [] => None
      end
  | Seq r1 r2 => matchRe r1 s (fun s' => matchRe r2 s' k)
  | Alt r1 r2 =>
      match matchRe r1 s k with
      | Some x => Some x
      | None => matchRe r2 s k
      end
  | Opt r1 =>
      match matchRe r1 s k with
      | Some x => Some x
      | None => k s
      end
  | Plus p =>
      match s with
      | c :: s' => if p c then matchStar p s' k else None
      | [] => None
      end
  | NotAhead r1 =>
      match matchRe r1 s (fun _ => Some tt) with
      | Some _ => None
      | None => k s
      end
  end.

(** [\s]: the WhiteSpace and LineTerminator code points of the language. *)
Definition isSpace (c : Z) : bool :=
  ((9 <=? c) && (c <=? 13) || (c =? 0x20) || (c =? 0xA0) || (c =? 0x1680)
   || (0x2000 <=? c) && (c <=? 0x200A) || (c =? 0x2028) || (c =? 0x2029)
   || (c =? 0x202F) || (c =? 0x205F) || (c =? 0x3000) || (c =? 0xFEFF))%Z.

(** A literal string of the pattern. *)
Fixpoint Lit (c : Z) (cs : list Z) : regex :=
  match cs with
  | [] => Chr (Z.eqb c)
  | c' :: cs' => Seq (Chr (Z.eqb c)) (Lit c' cs')
  end.

(** Latin-1 part of the Unicode general categories L and N, used to run the
    engine on concrete inputs. *)
Definition latin1Letter (c : Z) : bool :=
  ((65 <=? c) && (c <=? 90) || (97 <=? c) && (c <=? 122)
   || (c =? 0xAA) || (c =? 0xB5) || (c =? 0xBA)
   || (0xC0 <=? c) && (c <=? 0xD6) || (0xD8 <=? c) && (c <=? 0xF6)
   || (0xF8 <=? c) && (c <=? 0xFF))%Z.

Definition latin1Number (c : Z) : bool :=
  ((48 <=? c) && (c <=? 57) || (c =? 0xB2) || (c =? 0xB3) || (c =? 0xB9)
   || (0xBC <=? c) && (c <=? 0xBE))%Z.

Section Engine.

(** The Unicode property tables [\p{L}] and [\p{N}] belong to the language
    runtime; the engine is verified for any such tables. *)
Variables isLetter isNumber : Z -> bool.

(** ['s|'t|'re|'ve|'m|'ll|'d| ?\p{L}+| ?\p{N}+| ?[^\s\p{L}\p{N}]+|\s+(?!\S)|\s+] *)
Definition GPT2_PAT : regex :=
  let apos := 39%Z in
  let sp := Opt (Chr (Z.eqb 32)) in
  let other c := negb (isSpace c || isLetter c || isNumber c) in
  Alt (Lit apos [115]%Z) (* 's *)
  (Alt (Lit apos [116]%Z) (* 't *)
  (Alt (Lit apos [114; 101]%Z) (* 're *)
  (Alt (Lit apos [118; 101]%Z) (* 've *)
  (Alt (Lit apos [109]%Z) (* 'm *)
  (Alt (Lit apos [108; 108]%Z) (* 'll *)
  (Alt (Lit apos [100]%Z) (* 'd *)
  (Alt (Seq sp (Plus isLetter))
  (Alt (Seq sp (Plus isNumber))
  (Alt (Seq sp (Plus other))
  (Alt (Seq (Plus isSpace) (NotAhead (Chr (fun c => negb (isSpace c)))))
       (Plus isSpace))))))))))).

(** One attempt at the head of [s]: the input left after the match. *)
Definition matchHere (s : list Z) : option (list Z) := matchRe GPT2_PAT s Some.

(** The search of one [exec] call: the first position, from the current
    one on, where the pattern matches; the result is the matched code
    points and the input after them. *)
Fixpoint search (s : list Z) : option (list Z * list Z) :=
  match matchHere s with
  | Some rest => Some (take (length s - length rest) s, rest)
  | None =>
      match s with
      | [] => None
      | _ :: s' => search s'
      end
  end.

(** The loop of [match] with the [g] flag: collect the matched substrings;
    after an empty match the position advances by one code point.  [None]
    stands for running out of fuel. *)
Fixpoint matchLoop (fuel : nat) (s : list Z) : option (list (list Z)) :=
  match fuel with
  | 0 => None
  | S fuel' =>
      match search s with
      | None => Some []
      | Some (m, rest) =>
          tl ← (if length m =? 0
                then match rest with
                     | [] => Some []
                     | _ :: rest' => matchLoop fuel' rest'
                     end
                else matchLoop fuel' rest);
          Some (codeUnits m :: tl)
      end
  end.

(** [text.match(GPT2_PAT)]: [Some None] is the [null] result (no match). *)
Definition String_match (text : list Z) : option (option (list (list Z))) :=
  let cps := codePoints text in
  ms ← matchLoop (S (length cps)) cps;
  Some (match ms with [] => None | _ => Some ms end).

(** ** countPairsAcrossChunks *)

(** The [Map<string, number>] of pair counts keeps its keys in insertion
    order, which the selection loop depends on: an association list. *)
Fixpoint Map_get (key : list Z) (counts : list (list Z * nat)) : option nat :=
  match counts with
  | [] => None
  | (k, w) :: rest => if decide (k = key) then Some w else Map_get key rest
  end.

Fixpoint Map_set (key : list Z) (v : nat) (counts : list (list Z * nat))
  : list (list Z * nat) :=
  match counts with
  | [] => [(key, v)]
  | (k, w) :: rest =>
      if decide (k = key) then (k, v) :: rest else (k, w) :: Map_set key v rest
  end.

(** [tokens[i] + PAIR_SEP + tokens[i + 1]] *)
Definition pairKey (a b : Token) : list Z := a ++ [PAIR_SEP] ++ b.

(** [tokens[i]] of an array of strings.  Every read in the source is in
    range: the loops guard their indices, and the array obtained by
    splitting a key has at least two elements (lemma
    [split_pairKey_length]); the default stands for the reads that do not
    happen. *)
Definition at_ (tokens : list Token) (i : nat) : Token := nth i tokens [].

Definition countPairsInChunk (counts : list (list Z * nat)) (tokens : list Token)
  : list (list Z * nat) :=
  (* [tokens.length - 1] never goes below zero where it matters: the loop
     body needs [i < tokens.length - 1] with [i >= 0] *)
  foldl (fun counts i =>
           let key := pairKey (at_ tokens i) (at_ tokens (i + 1)) in
           Map_set key (default 0 (Map_get key counts) + 1) counts)
        counts (seq 0 (length tokens - 1)).

Definition countPairsAcrossChunks (chunks : list (list Token))
  : list (list Z * nat) :=
  foldl countPairsInChunk [] chunks.

(** ** mergePairInChunk *)

Definition tokenEqb (x y : Token) : bool := bool_decide (x = y).

(** The [while (i < tokens.length)] loop; [None] stands for running out of
    fuel. *)
Fixpoint mergeLoop (fuel : nat) (tokens : list Token) (a b merged : Token)
    (i : nat) (result : list Token) : option (list Token) :=
  if negb (i <? length tokens) then Some result
  else
    match fuel with
    | 0 => None
    | S fuel' =>
        if (i <? length tokens - 1) && tokenEqb (at_ tokens i) a
           && tokenEqb (at_ tokens (i + 1)) b
        then mergeLoop fuel' tokens a b merged (i + 2) (result ++ [merged])
        else mergeLoop fuel' tokens a b merged (i + 1) (result ++ [at_ tokens i])
    end.

(** [const [a, b] = pair]: the first two elements of the array. *)
Definition mergePairInChunk (tokens : list Token) (pair : list Token)
  : option (list Token) :=
  let a := at_ pair 0 in
  let b := at_ pair 1 in
  let merged := a ++ b in
  mergeLoop (length tokens) tokens a b merged 0 [].

(** ** runBPE *)

(** [s.split(sep)] for a one-unit separator. *)
Fixpoint splitGo (sep : Z) (s : list Z) (cur : list Z) : list (list Z) :=
  match s with
  | [] => [cur]
  | c :: s' =>
      if (c =? sep)%Z then cur :: splitGo sep s' [] else splitGo sep s' (cur ++ [c])
  end.

Definition split (sep : Z) (s : list Z) : list (list Z) := splitGo sep s [].

(** The selection loop [for (const [key, freq] of counts)]. *)
Definition selectBest (counts : list (list Z * nat)) : list Z * nat :=
  foldl (fun '(bestKey, bestFreq) '(key, freq) =>
           if bestFreq <? freq then (key, freq) else (bestKey, bestFreq))
        ([], 0) counts.

(** [maxMerges !== undefined && stepIndex > maxMerges] *)
Definition overBound (maxMerges : option Z) (stepIndex : nat) : bool :=
  match maxMerges with
  | Some k => (k <? Z.of_nat stepIndex)%Z
  | None => false
  end.

(** The [while (true)] loop; [None] stands for running out of fuel. *)
Fixpoint bpeLoop (fuel : nat) (maxMerges : option Z) (chunks : list (list Token))
    (stepIndex : nat) (steps : list BPEStep) : option (list BPEStep) :=
  match fuel with
  | 0 => None
  | S fuel' =>
      let counts := countPairsAcrossChunks chunks in
      if length counts =? 0 then Some steps
      else
        let '(bestKey, bestFreq) := selectBest counts in
        if bestFreq <? 2 then Some steps
        else if overBound maxMerges stepIndex then Some steps
        else
          let pair := split PAIR_SEP bestKey in
          chunks' ← mapM (fun chunk => mergePairInChunk chunk pair) chunks;
          bpeLoop fuel' maxMerges chunks' (stepIndex + 1)
            (steps ++ [mkStep stepIndex (Some pair) (Some bestFreq)
                         (Some (at_ pair 0 ++ at_ pair 1)) (concat chunks')])
  end.

Definition runBPE (text : list Z) (maxMerges : option Z) : option BPEResult :=
  if length text =? 0 then Some (mkResult [])
  else
    matches ← String_match text;
    match matches with
    | None => Some (mkResult [])
    | Some matches =>
        if length matches =? 0 then Some (mkResult [])
        else
          let chunks := map encodeChunk matches in
          let steps := [mkStep 0 None None None (concat chunks)] in
          steps' ← bpeLoop (S (length (concat chunks))) maxMerges chunks 1 steps;
          Some (mkResult steps')
    end.

End Engine.

(** ** Reference definitions used to state the properties *)

(** The merge pass as the specification words it: scan left to right,
    replace an adjacent [a], [b] by [a ++ b] and resume after both. *)
Fixpoint mergeSpec (a b : Token) (tks : list Token) : list Token :=
  match tks with
  | [] => []
  | x :: rest =>
      match rest with
      | y :: rest' =>
          if decide (x = a ∧ y = b) then (a ++ b) :: mergeSpec a b rest'
          else x :: mergeSpec a b rest
      | [] => [x]
      end
  end.

(** The number of replacements the merge pass applies. *)
Fixpoint mergeCount (a b : Token) (tks : list Token) : nat :=
  match tks with
  | [] => 0
  | x :: rest =>
      match rest with
      | y :: rest' =>
          if decide (x = a ∧ y = b) then S (mergeCount a b rest')
          else mergeCount a b rest
      | [] => 0
      end
  end.

(** The adjacent pairs of one chunk, and of all chunks, in scan order. *)
Definition adjacentPairs (tks : list Token) : list (Token * Token) :=
  zip tks (tail tks).

Definition allPairs (chunks : list (list Token)) : list (Token * Token) :=
  concat (map adjacentPairs chunks).

(** Number of occurrences and position of the first occurrence (the length
    of the list when there is none). *)
Definition occurrences {A} `{EqDecision A} (x : A) (l : list A) : nat :=
  length (filter (fun y => y = x) l).

Fixpoint firstIndex {A} `{EqDecision A} (x : A) (l : list A) : nat :=
  match l with
  | [] => 0
  | y :: l' => if decide (y = x) then 0 else S (firstIndex x l')
  end.

(** One update of the count table. *)
Definition bump (counts : list (list Z * nat)) (key : list Z)
  : list (list Z * nat) :=
  Map_set key (default 0 (Map_get key counts) + 1) counts.

(** A token that does not contain the separator. *)
Definition NulFree (t : Token) : Prop := PAIR_SEP ∉ t.

#[global] Instance NulFree_dec (t : list Z) : Decision (NulFree t).
Proof. unfold NulFree. apply _. Defined.

(** A token made of symbol-table characters only (none below U+0021). *)
Definition Sym (t : Token) : Prop := Forall (fun c => 33 <= c)%Z t.

(** The steps the main loop records from a given state: the loop stops when
    there is no pair, when the best frequency is below 2 or when the step
    index exceeds the bound; otherwise it merges the selected pair in every
    chunk, records a step and goes on. *)
Inductive Trace (maxMerges : option Z)
  : list (list Token) → nat → list BPEStep → Prop :=
| Trace_stop (chunks : list (list Token)) (idx : nat) :
    allPairs chunks = []
    ∨ (selectBest (countPairsAcrossChunks chunks)).2 < 2
    ∨ overBound maxMerges idx = true →
    Trace maxMerges chunks idx []
| Trace_merge (chunks : list (list Token)) (idx : nat) (a b : Token) (f : nat)
    (rest : list BPEStep) :
    (a, b) ∈ allPairs chunks →
    selectBest (countPairsAcrossChunks chunks) = (pairKey a b, f) →
    f = occurrences (a, b) (allPairs chunks) →
    (∀ p, occurrences p (allPairs chunks) ≤ f) →
    (∀ p, occurrences p (allPairs chunks) = f →
       firstIndex (a, b) (allPairs chunks) ≤ firstIndex p (allPairs chunks)) →
    2 ≤ f →
    overBound maxMerges idx = false →
    Trace maxMerges (map (mergeSpec a b) chunks) (S idx) rest →
    Trace maxMerges chunks idx
      (mkStep idx (Some [a; b]) (Some f) (Some (a ++ b))
         (concat (map (mergeSpec a b) chunks)) :: rest).

(** Whether every match of a pattern takes at least one code point. *)
Fixpoint consumes (r : regex) : bool :=
  match r with
  | Chr _ | Plus _ => true
  | Seq r1 r2 => consumes r1 || consumes r2
  | Alt r1 r2 => consumes r1 && consumes r2
  | Opt _ | NotAhead _ => false
  end.

(** The inverse of the byte table, keyed by the one-character strings, and
    the decoding of a symbol string back to bytes. *)
Definition UNICODE_TO_BYTE : gmap (list Z) Z :=
  Eval vm_compute in list_to_map (prod_swap <$> map_to_list BYTE_TO_UNICODE).

Definition decodeSymbols (s : list Z) : option (list Z) :=
  mapM (fun c => UNICODE_TO_BYTE !! [c]) s.

(** No unpaired high surrogate is directly followed by an unpaired low one. *)
Fixpoint noPair (cps : list Z) : Prop :=
  match cps with
  | [] => True
  | h :: rest =>
      match rest with
      | l :: _ => ¬ (isHighSurrogate h = true ∧ isLowSurrogate l = true) ∧ noPair rest
      | [] => True
      end
  end.

(** The chunk list the main loop starts from. *)
Definition initialChunks (isLetter isNumber : Z → bool) (text : list Z)
  : list (list Token) :=
  match String_match isLetter isNumber text with
  | Some (Some matches) => map encodeChunk matches
  | _ => []
  end.

(** Sample inputs: ["hello hello"] and ["abc"]. *)
Definition text_hello : list Z :=
  [104; 101; 108; 108; 111; 32; 104; 101; 108; 108; 111]%Z.

Definition text_abc : list Z := [97; 98; 99]%Z.

(** The table after counting the keys [ks] in order: one entry per key that
    occurs, holding its number of occurrences, the entries ordered by first
    occurrence. *)
Definition tallyInv (ks : list (list Z)) (counts : list (list Z * nat)) : Prop :=
  NoDup counts.*1
  ∧ (∀ k n, (k, n) ∈ counts ↔ n = occurrences k ks ∧ 0 < n)
  ∧ (∀ i j e1 e2, counts !! i = Some e1 → counts !! j = Some e2 → i < j →
       firstIndex e1.1 ks < firstIndex e2.1 ks).

(** ** The token chips of the page (page.tsx) *)

(** [const TOKEN_COLORS = [...]] *)
Open Scope string_scope.

Definition TOKEN_COLORS : list String.string :=
  ["bg-[#ffdfdf]"; "bg-[#dfe7ff]"; "bg-[#d6f5d6]"; "bg-[#fff3d6]";
   "bg-[#eedcff]"; "bg-[#ffd6ec]"; "bg-[#d6eeff]"; "bg-[#d6fff6]";
   "bg-[#ffe8d6]"; "bg-[#f0f0d6]"].

Close Scope string_scope.

(** [x | 0]: the signed 32-bit integer congruent to [x]. *)
Definition toInt32 (x : Z) : Z := ((x + 2 ^ 31) mod 2 ^ 32 - 2 ^ 31)%Z.

(** [ch.charCodeAt(0)] for the string [ch] of one code point: its first
    code unit. *)
Definition charCodeAt0 (c : Z) : Z := nth 0 (codeUnit c) 0%Z.

(** The loop [for (const ch of token) hash = (hash * 31 + ch.charCodeAt(0)) | 0];
    the iteration of a string goes code point by code point.  The numbers
    stay far below 2^53, so the arithmetic of the language is exact. *)
Definition tokenHash (token : list Z) : Z :=
  foldl (fun hash c => toInt32 (hash * 31 + charCodeAt0 c)%Z) 0%Z
        (codePoints token).

(** [TOKEN_COLORS[Math.abs(hash) % TOKEN_COLORS.length]]; [None] stands for
    [undefined]. *)
Definition tokenColor (token : list Z) : option String.string :=
  TOKEN_COLORS
    !! Z.to_nat (Z.abs (tokenHash token) mod Z.of_nat (length TOKEN_COLORS)).

(** ** The character-level engine (the simple variant of bpe.ts)

    It keys the count table with [JSON.stringify([a, b])] and reads the
    selected pair back with [JSON.parse]. *)

(** *** JSON.stringify on arrays of strings *)

Definition hexDigit (d : Z) : Z := if (d <? 10)%Z then (48 + d)%Z else (87 + d)%Z.

(** [UnicodeEscape]: backslash, [u] and four lower-case hexadecimal digits. *)
Definition unicodeEscape (c : Z) : list Z :=
  [92; 117; hexDigit (c / 4096 mod 16); hexDigit (c / 256 mod 16);
   hexDigit (c / 16 mod 16); hexDigit (c mod 16)]%Z.

(** One code point of [QuoteJSONString]: the two-character escapes of
    backspace, tab, line feed, form feed, carriage return, the double quote
    and the backslash; a [\u] escape for the other control characters and
    for unpaired surrogates; the code units of any other code point. *)
Definition quoteCodePoint (c : Z) : list Z :=
  (if c =? 8 then [92; 98]
   else if c =? 9 then [92; 116]
   else if c =? 10 then [92; 110]
   else if c =? 12 then [92; 102]
   else if c =? 13 then [92; 114]
   else if c =? 34 then [92; 34]
   else if c =? 92 then [92; 92]
   else if (c <? 32) || isHighSurrogate c || isLowSurrogate c
        then unicodeEscape c
   else codeUnit c)%Z.

Definition QuoteJSONString (s : list Z) : list Z :=
  [34%Z] ++ flat_map quoteCodePoint (codePoints s) ++ [34%Z].

Fixpoint joinComma (parts : list (list Z)) : list Z :=
  match parts with
  | [] => []
  | p :: rest =>
      match rest with
      | [] => p
      | _ :: _ => p ++ [44%Z] ++ joinComma rest
      end
  end.

(** [JSON.stringify(arr)] for an array of strings. *)
Definition JSON_stringify (arr : list Token) : list Z :=
  [91%Z] ++ joinComma (map QuoteJSONString arr) ++ [93%Z].

(** *** JSON.parse on the texts of arrays of strings

    The engine only parses keys it has produced.  The model covers JSON
    texts that are an array of string literals without insignificant white
    space; [None] stands for the [SyntaxError] of a malformed string
    literal and for the texts outside this fragment. *)

Definition hexValue (d : Z) : option Z :=
  (if (48 <=? d) && (d <=? 57) then Some (d - 48)
   else if (97 <=? d) && (d <=? 102) then Some (d - 87)
   else if (65 <=? d) && (d <=? 70) then Some (d - 55)
   else None)%Z.

Definition simpleEscape (e : Z) : option Z :=
  (if e =? 34 then Some 34
   else if e =? 92 then Some 92
   else if e =? 47 then Some 47
   else if e =? 98 then Some 8
   else if e =? 102 then Some 12
   else if e =? 110 then Some 10
   else if e =? 114 then Some 13
   else if e =? 116 then Some 9
   else None)%Z.

(** The characters of a string literal after its opening quote, and the
    input after its closing quote. *)
Fixpoint parseString (s : list Z) : option (list Z * list Z) :=
  match s with
  | [] => None
  | c :: rest =>
      if (c =? 34)%Z then Some ([], rest)
      else if (c =? 92)%Z then
        match rest with
        | [] => None
        | e :: rest1 =>
            if (e =? 117)%Z then
              match rest1 with
              | h1 :: h2 :: h3 :: h4 :: rest2 =>
                  d1 ← hexValue h1; d2 ← hexValue h2;
                  d3 ← hexValue h3; d4 ← hexValue h4;
                  '(str, r) ← parseString rest2;
                  Some ((d1 * 4096 + d2 * 256 + d3 * 16 + d4)%Z :: str, r)
              | _ => None
              end
            else
              v ← simpleEscape e;
              '(str, r) ← parseString rest1;
              Some (v :: str, r)
        end
      else if (c <? 32)%Z then None
      else '(str, r) ← parseString rest; Some (c :: str, r)
  end.

(** The elements of a non-empty array, from the opening quote of the first
    one to the closing bracket. *)
Fixpoint parseElements (fuel : nat) (s : list Z) : option (list (list Z)) :=
  match fuel with
  | 0 => None
  | S fuel' =>
      match s with
      | c :: rest =>
          if (c =? 34)%Z then
            '(str, r) ← parseString rest;
            match r with
            | d :: r' =>
                if (d =? 93)%Z then
                  match r' with [] => Some [str] | _ :: _ => None end
                else if (d =? 44)%Z then
                  tl ← parseElements fuel' r'; Some (str :: tl)
                else None
            | [] => None
            end
          else None
      | [] => None
      end
  end.

Definition JSON_parse (s : list Z) : option (list Token) :=
  match s with
  | c :: rest =>
      if (c =? 91)%Z then
        match rest with
        | d :: rest' =>
            if (d =? 93)%Z then match rest' with [] => Some [] | _ :: _ => None end
            else parseElements (length rest) rest
        | [] => None
        end
      else None
  | [] => None
  end.

Module Simple.

(** [countPairs] *)
Definition countPairs (tokens : list Token) : list (list Z * nat) :=
  foldl (fun counts i =>
           let key := JSON_stringify [at_ tokens i; at_ tokens (i + 1)] in
           Map_set key (default 0 (Map_get key counts) + 1) counts)
        [] (seq 0 (length tokens - 1)).

(** [mergePair]: the same loop as [mergePairInChunk]. *)
Definition mergePair (tokens : list Token) (pair : list Token)
  : option (list Token) :=
  let a := at_ pair 0 in
  let b := at_ pair 1 in
  let merged := a ++ b in
  mergeLoop (length tokens) tokens a b merged 0 [].

(** [text.split("").map((ch) => (ch === "\n" ? "\\n" : ch))]: one token per
    code unit, a line feed becoming the two characters backslash, [n]. *)
Definition splitChars (text : list Z) : list Token :=
  map (fun u => if (u =? 10)%Z then [92; 110]%Z else [u]) text.

(** The [while (true)] loop; [None] stands for running out of fuel or for an
    exception of [JSON.parse]. *)
Fixpoint loop (fuel : nat) (maxMerges : option Z) (tokens : list Token)
    (stepIndex : nat) (steps : list BPEStep) : option (list BPEStep) :=
  match fuel with
  | 0 => None
  | S fuel' =>
      let counts := countPairs tokens in
      if length counts =? 0 then Some steps
      else
        let '(bestKey, bestFreq) := selectBest counts in
        if bestFreq <? 2 then Some steps
        else if overBound maxMerges stepIndex then Some steps
        else
          pair ← JSON_parse bestKey;
          tokens' ← mergePair tokens pair;
          loop fuel' maxMerges tokens' (stepIndex + 1)
            (steps ++ [mkStep stepIndex (Some pair) (Some bestFreq)
                         (Some (at_ pair 0 ++ at_ pair 1)) tokens'])
  end.

Definition runBPE (text : list Z) (maxMerges : option Z) : option BPEResult :=
  if length text =? 0 then Some (mkResult [])
  else
    let tokens := splitChars text in
    let steps := [mkStep 0 None None None tokens] in
    steps' ← loop (S (length tokens)) maxMerges tokens 1 steps;
    Some (mkResult steps').

End Simple.

(** Classic BPE on one token list, stated without reference to keys: stop
    when no pair occurs twice or the bound is exceeded; otherwise merge the
    most frequent pair, the first met among the most frequent ones. *)
Inductive SimpleTrace (maxMerges : option Z)
  : list Token → nat → list BPEStep → Prop :=
| SimpleTrace_stop (tks : list Token) (idx : nat) :
    (∀ p, occurrences p (adjacentPairs tks) < 2)
    ∨ overBound maxMerges idx = true →
    SimpleTrace maxMerges tks idx []
| SimpleTrace_merge (tks : list Token) (idx : nat) (a b : Token) (f : nat)
    (rest : list BPEStep) :
    (a, b) ∈ adjacentPairs tks →
    f = occurrences (a, b) (adjacentPairs tks) →
    (∀ p, occurrences p (adjacentPairs tks) ≤ f) →
    (∀ p, occurrences p (adjacentPairs tks) = f →
       firstIndex (a, b) (adjacentPairs tks) ≤ firstIndex p (adjacentPairs tks)) →
    2 ≤ f →
    overBound maxMerges idx = false →
    SimpleTrace maxMerges (mergeSpec a b tks) (S idx) rest →
    SimpleTrace maxMerges tks idx
      (mkStep idx (Some [a; b]) (Some f) (Some (a ++ b)) (mergeSpec a b tks)
       :: rest).

(** * Properties *)

(** ** The byte table *)

Lemma BYTE_TO_UNICODE_unfold : BYTE_TO_UNICODE = bytesToUnicode.
Proof. vm_compute. reflexivity. Qed.

Lemma BYTE_TO_UNICODE_lookup (b : Z) :
  (0 <= b < 256)%Z → BYTE_TO_UNICODE !! b = Some [specTable b].
Proof.
  intros Hb.
  assert (Hall : Forall (fun b => BYTE_TO_UNICODE !! b = Some [specTable b])
                   (seqZ 0 256)).
  { apply Forall_forall. intros x Hx.
    assert (Hc : forallb (fun b => bool_decide
                (BYTE_TO_UNICODE !! b = Some [specTable b])) (seqZ 0 256) = true)
      by (vm_compute; reflexivity).
    rewrite forallb_forall in Hc. apply list_elem_of_In in Hx.
    apply Hc in Hx. by apply bool_decide_eq_true in Hx. }
  rewrite Forall_forall in Hall. apply Hall, elem_of_seqZ. lia.
Qed.

Lemma BYTE_TO_UNICODE_dom : dom BYTE_TO_UNICODE = list_to_set (seqZ 0 256).
Proof. vm_compute. reflexivity. Qed.

Lemma specTable_inj (b1 b2 : Z) :
  (0 <= b1 < 256)%Z → (0 <= b2 < 256)%Z → specTable b1 = specTable b2 → b1 = b2.
Proof.
  intros H1 H2 Heq.
  pose (l := map (fun x => (x, specTable x)) (seqZ 0 256)).
  assert (Hc : forallb (fun p : Z * Z => forallb (fun q : Z * Z =>
                 implb (p.2 =? q.2)%Z (p.1 =? q.1)%Z) l) l = true)
    by (vm_compute; reflexivity).
  assert (Hin : ∀ b, (0 <= b < 256)%Z → In (b, specTable b) l).
  { intros b Hb. apply in_map_iff. exists b. split; [done|].
    apply list_elem_of_In, elem_of_seqZ. lia. }
  rewrite forallb_forall in Hc.
  specialize (Hc _ (Hin b1 H1)). rewrite forallb_forall in Hc.
  specialize (Hc _ (Hin b2 H2)). simpl in Hc.
  rewrite Heq, Z.eqb_refl in Hc. simpl in Hc. by apply Z.eqb_eq.
Qed.

Lemma specTable_range (b : Z) :
  (0 <= b < 256)%Z → (33 <= specTable b < 324)%Z.
Proof.
  intros Hb.
  assert (Hc : forallb (fun x => (33 <=? specTable x)%Z && (specTable x <? 324)%Z)
                 (seqZ 0 256) = true) by (vm_compute; reflexivity).
  rewrite forallb_forall in Hc.
  specialize (Hc b). rewrite <- list_elem_of_In, elem_of_seqZ in Hc.
  specialize (Hc ltac:(lia)). lia.
Qed.

(** C6: the byte-to-unicode table is defined exactly on the byte values
    0..255; a visible byte maps to the one-character string of its own code
    point and every other byte, in increasing order, to the consecutive code
    points from U+0100 on ([specTable]); the 256 images are pairwise
    distinct. *)
Theorem C6_byte_table_bijection :
  (∀ b : Z, is_Some (BYTE_TO_UNICODE !! b) ↔ (0 <= b < 256)%Z)
  ∧ (∀ b : Z, (0 <= b < 256)%Z →
       BYTE_TO_UNICODE !! b = Some [specTable b]
       ∧ (visibleByte b = true → specTable b = b)
       ∧ (visibleByte b = false →
            specTable b = (256 + Z.of_nat (length
              (filter (fun x => visibleByte x = false) (seqZ 0 b))))%Z))
  ∧ (∀ (b1 b2 : Z) (t : list Z),
       BYTE_TO_UNICODE !! b1 = Some t → BYTE_TO_UNICODE !! b2 = Some t → b1 = b2)
  ∧ size BYTE_TO_UNICODE = 256
  ∧ BYTE_TO_UNICODE = bytesToUnicode
  ∧ (∀ b : Z, visibleByte b = true ↔
       (33 <= b <= 126 ∨ 161 <= b <= 172 ∨ 174 <= b <= 255)%Z).
Proof.
  assert (Hdom : ∀ b : Z, is_Some (BYTE_TO_UNICODE !! b) ↔ (0 <= b < 256)%Z).
  { intros b. rewrite <- elem_of_dom, BYTE_TO_UNICODE_dom, elem_of_list_to_set,
      elem_of_seqZ. lia. }
  split; [exact Hdom|]. split; [|split; [|split; [|split]]].
  - intros b Hb. split; [by apply BYTE_TO_UNICODE_lookup|].
    unfold specTable. split; intros ->; reflexivity.
  - intros b1 b2 t H1 H2.
    assert (Hb1 : (0 <= b1 < 256)%Z) by (apply Hdom; eauto).
    assert (Hb2 : (0 <= b2 < 256)%Z) by (apply Hdom; eauto).
    rewrite BYTE_TO_UNICODE_lookup in H1 by done.
    rewrite BYTE_TO_UNICODE_lookup in H2 by done.
    apply specTable_inj; [done..|]. congruence.
  - vm_compute. reflexivity.
  - exact BYTE_TO_UNICODE_unfold.
  - intros b. unfold visibleByte. lia.
Qed.

Lemma C6_byte_table_bijection_witness :
  BYTE_TO_UNICODE !! 32%Z = Some [288%Z] ∧ BYTE_TO_UNICODE !! 65%Z = Some [65%Z].
Proof.
  destruct C6_byte_table_bijection as (_ & H & _).
  split.
  - destruct (H 32%Z ltac:(lia)) as (-> & _). reflexivity.
  - destruct (H 65%Z ltac:(lia)) as (-> & _). reflexivity.
Defined.

(** ** The merge pass *)

Lemma at_lookup (l : list (list Z)) (i : nat) (x : list Z) :
  l !! i = Some x → at_ l i = x.
Proof. intros H. unfold at_. by rewrite nth_lookup, H. Qed.

Lemma mergeLoop_spec (fuel : nat) (tks : list (list Z)) (a b : list Z) :
  ∀ (i : nat) (result : list (list Z)),
    length tks - i ≤ fuel →
    mergeLoop fuel tks a b (a ++ b) i result
    = Some (result ++ mergeSpec a b (drop i tks)).
Proof.
  induction fuel as [|fuel IH]; intros i result Hfuel.
  - simpl. destruct (Nat.ltb_spec i (length tks)); [lia|].
    simpl. rewrite drop_ge by lia. by rewrite app_nil_r.
  - simpl. destruct (Nat.ltb_spec i (length tks)) as [Hi|Hi]; simpl.
    2:{ rewrite drop_ge by lia. by rewrite app_nil_r. }
    destruct (lookup_lt_is_Some_2 tks i Hi) as [x Hx].
    rewrite (drop_S _ _ _ Hx), (at_lookup _ _ _ Hx).
    destruct (Nat.ltb_spec i (length tks - 1)) as [Hi1|Hi1]; simpl.
    + destruct (lookup_lt_is_Some_2 tks (S i) ltac:(lia)) as [y Hy].
      replace (i + 1) with (S i) by lia.
      rewrite (at_lookup _ _ _ Hy). unfold tokenEqb.
      rewrite !IH by lia.
      rewrite (drop_S _ _ _ Hy). cbn [mergeSpec].
      destruct (decide (x = a ∧ y = b)) as [[-> ->]|Hne].
      * rewrite !bool_decide_eq_true_2 by done. simpl.
        replace (i + 2) with (S (S i)) by lia.
        by rewrite <- app_assoc.
      * assert (bool_decide (x = a) && bool_decide (y = b) = false) as ->.
        { apply andb_false_iff. rewrite !bool_decide_eq_false.
          destruct (decide (x = a)); [right|left]; tauto. }
        by rewrite <- app_assoc.
    + rewrite (drop_ge tks (S i)) by lia. simpl.
      replace (i + 1) with (S i) by lia.
      rewrite IH by lia. rewrite (drop_ge tks (S i)) by lia.
      by rewrite <- app_assoc.
Qed.

Lemma mergePairInChunk_spec (tks pair : list (list Z)) :
  mergePairInChunk tks pair = Some (mergeSpec (at_ pair 0) (at_ pair 1) tks).
Proof.
  unfold mergePairInChunk. rewrite mergeLoop_spec by lia. by rewrite drop_0.
Qed.


Lemma mergeSpec_hit (a b : list Z) (rest : list (list Z)) :
  mergeSpec a b (a :: b :: rest) = (a ++ b) :: mergeSpec a b rest.
Proof. cbn [mergeSpec]. by rewrite decide_True. Qed.

Lemma mergeSpec_miss (a b x : list Z) (rest : list (list Z)) :
  ¬ (x = a ∧ head rest = Some b) →
  mergeSpec a b (x :: rest) = x :: mergeSpec a b rest.
Proof.
  destruct rest as [|y rest]; [done|]. intros Hne. cbn [mergeSpec].
  rewrite decide_False; [done|]. intros [-> ->]. by apply Hne.
Qed.

Lemma mergeCount_hit (a b : list Z) (rest : list (list Z)) :
  mergeCount a b (a :: b :: rest) = S (mergeCount a b rest).
Proof. cbn [mergeCount]. by rewrite decide_True. Qed.

Lemma mergeCount_miss (a b x : list Z) (rest : list (list Z)) :
  ¬ (x = a ∧ head rest = Some b) →
  mergeCount a b (x :: rest) = mergeCount a b rest.
Proof.
  destruct rest as [|y rest]; [done|]. intros Hne. cbn [mergeCount].
  rewrite decide_False; [done|]. intros [-> ->]. by apply Hne.
Qed.

(** Induction along the scan of the merge pass. *)
Lemma merge_ind (a b : list Z) (P : list (list Z) → Prop) :
  P [] →
  (∀ rest, P rest → P (a :: b :: rest)) →
  (∀ x rest, ¬ (x = a ∧ head rest = Some b) → P rest → P (x :: rest)) →
  ∀ tks, P tks.
Proof.
  intros Hnil Hhit Hmiss tks.
  induction tks as [tks IH] using (induction_ltof1 _ (@length _)).
  unfold ltof in IH. destruct tks as [|x rest]; [done|].
  destruct (decide (x = a ∧ head rest = Some b)) as [[-> Hh]|Hne].
  - destruct rest as [|y rest]; [done|]. simpl in Hh. injection Hh as ->.
    apply Hhit, IH. simpl. lia.
  - apply Hmiss; [done|]. apply IH. simpl. lia.
Qed.

Lemma mergeSpec_concat (a b : list Z) (tks : list (list Z)) :
  concat (mergeSpec a b tks) = concat tks.
Proof.
  induction tks as [|rest IH|x rest Hne IH] using (merge_ind a b); [done|..].
  - rewrite mergeSpec_hit, !concat_cons, IH. by rewrite <- app_assoc.
  - by rewrite mergeSpec_miss, !concat_cons, IH.
Qed.

Lemma mergeSpec_length (a b : list Z) (tks : list (list Z)) :
  length (mergeSpec a b tks) + mergeCount a b tks = length tks.
Proof.
  induction tks as [|rest IH|x rest Hne IH] using (merge_ind a b); [done|..].
  - rewrite mergeSpec_hit, mergeCount_hit. simpl. lia.
  - rewrite mergeSpec_miss, mergeCount_miss by done. simpl. lia.
Qed.

(** C1: the merge pass computes the left-to-right, non-overlapping
    replacement of the adjacent pair [a], [b] by [a ++ b] ([mergeSpec],
    whose three defining cases are stated: end of input, a merge that
    resumes after both tokens, a copy that resumes at the next token); on
    [[a; a; b]] with distinct [a] and [b] the result is [[a; a ++ b]]. *)
Theorem C1_merge_pass :
  (∀ (tks : list (list Z)) (a b : list Z),
      mergePairInChunk tks [a; b] = Some (mergeSpec a b tks))
  ∧ (∀ a b : list Z, mergeSpec a b [] = [])
  ∧ (∀ (a b : list Z) (rest : list (list Z)),
      mergeSpec a b (a :: b :: rest) = (a ++ b) :: mergeSpec a b rest)
  ∧ (∀ (a b x : list Z) (rest : list (list Z)),
      ¬ (x = a ∧ head rest = Some b) →
      mergeSpec a b (x :: rest) = x :: mergeSpec a b rest)
  ∧ (∀ a b : list Z, a ≠ b →
      mergePairInChunk [a; a; b] [a; b] = Some [a; a ++ b]).
Proof.
  split; [|split; [|split; [|split]]].
  - intros tks a b. by rewrite mergePairInChunk_spec.
  - done.
  - apply mergeSpec_hit.
  - apply mergeSpec_miss.
  - intros a b Hab. rewrite mergePairInChunk_spec. cbn [at_ nth].
    rewrite mergeSpec_miss by (intros [_ [=]]; done).
    by rewrite mergeSpec_hit.
Qed.

Lemma C1_merge_pass_witness :
  [97%Z] ≠ [98%Z]
  ∧ mergePairInChunk [[97%Z]; [97%Z]; [98%Z]] [[97%Z]; [98%Z]]
    = Some [[97%Z]; [97%Z; 98%Z]].
Proof.
  split; [done|].
  exact (proj2 (proj2 (proj2 (proj2 C1_merge_pass))) [97%Z] [98%Z] ltac:(done)).
Defined.

(** ** Pair counting *)

Lemma countPairsInChunk_keys (counts : list (list Z * nat)) (tks : list (list Z)) :
  countPairsInChunk counts tks
  = foldl bump counts (map (fun p => pairKey p.1 p.2) (adjacentPairs tks)).
Proof.
  unfold countPairsInChunk.
  assert (Hk : map (fun i => pairKey (at_ tks i) (at_ tks (i + 1)))
                 (seq 0 (length tks - 1))
               = map (fun p => pairKey p.1 p.2) (adjacentPairs tks)).
  { induction tks as [|x [|y rest] IH]; [done..|].
    replace (length (x :: y :: rest) - 1) with (S (length (y :: rest) - 1))
      by (simpl; lia).
    change (adjacentPairs (x :: y :: rest))
      with ((x, y) :: adjacentPairs (y :: rest)).
    rewrite (map_cons _ (x, y)), <- IH. cbn [seq map].
    rewrite <- seq_shift, map_map. f_equal. }
  rewrite <- Hk. generalize (seq 0 (length tks - 1)) as l. intros l.
  revert counts. induction l as [|i l IH]; intros counts; [done|].
  simpl. by rewrite IH.
Qed.

Lemma countPairsAcrossChunks_keys (chunks : list (list (list Z))) :
  countPairsAcrossChunks chunks
  = foldl bump [] (map (fun p => pairKey p.1 p.2) (allPairs chunks)).
Proof.
  unfold countPairsAcrossChunks, allPairs. generalize (@nil (list Z * nat)).
  induction chunks as [|c chunks IH]; intros counts; [done|].
  simpl. rewrite IH, countPairsInChunk_keys, map_app, foldl_app. done.
Qed.

Lemma Map_get_set_eq (k : list Z) (v : nat) (counts : list (list Z * nat)) :
  Map_get k (Map_set k v counts) = Some v.
Proof.
  induction counts as [|[k' w] counts IH]; simpl.
  - by rewrite decide_True.
  - destruct (decide (k' = k)) as [->|Hne]; simpl.
    + by rewrite decide_True.
    + by rewrite decide_False.
Qed.

Lemma Map_get_set_ne (k k' : list Z) (v : nat) (counts : list (list Z * nat)) :
  k ≠ k' → Map_get k' (Map_set k v counts) = Map_get k' counts.
Proof.
  intros Hne. induction counts as [|[k0 w] counts IH]; simpl.
  - by rewrite decide_False.
  - destruct (decide (k0 = k)) as [->|Hne0]; simpl.
    + by rewrite !decide_False.
    + destruct (decide (k0 = k')); done.
Qed.

Lemma Map_set_keys_in (k : list Z) (v : nat) (counts : list (list Z * nat)) :
  is_Some (Map_get k counts) → (Map_set k v counts).*1 = counts.*1.
Proof.
  induction counts as [|[k0 w] counts IH]; cbn [Map_get Map_set].
  - by intros [? [=]].
  - destruct (decide (k0 = k)) as [->|Hne0]; [done|].
    intros H. rewrite !fmap_cons. f_equal. by apply IH.
Qed.

Lemma Map_set_keys_notin (k : list Z) (v : nat) (counts : list (list Z * nat)) :
  Map_get k counts = None → Map_set k v counts = counts ++ [(k, v)].
Proof.
  induction counts as [|[k0 w] counts IH]; simpl; [done|].
  destruct (decide (k0 = k)) as [->|Hne0]; simpl; [done|].
  intros H. by rewrite IH.
Qed.

Lemma Map_get_lookup (k : list Z) (counts : list (list Z * nat)) (n : nat) :
  NoDup counts.*1 → (Map_get k counts = Some n ↔ (k, n) ∈ counts).
Proof.
  induction counts as [|[k0 w] counts IH]; simpl.
  - intros _. split; [done|]. by intros ?%elem_of_nil.
  - intros [Hnin Hnd]%NoDup_cons. destruct (decide (k0 = k)) as [->|Hne0].
    + split.
      * intros [= ->]. left.
      * intros [[= ->]|Hin]%elem_of_cons; [done|]. exfalso. apply Hnin.
        apply list_elem_of_fmap. by exists (k, n).
    + rewrite IH by done. split.
      * by right.
      * intros [[= -> ->]|Hin]%elem_of_cons; done.
Qed.

Lemma Map_get_None (k : list Z) (counts : list (list Z * nat)) :
  Map_get k counts = None ↔ k ∉ counts.*1.
Proof.
  induction counts as [|[k0 w] counts IH]; simpl.
  - split; [|done]. intros _ ?%elem_of_nil. done.
  - destruct (decide (k0 = k)) as [->|Hne0].
    + split; [done|]. intros H. exfalso. apply H. left.
    + rewrite IH. rewrite not_elem_of_cons.
      split; [intros ?; split; [congruence|done] | by intros [_ ?]].
Qed.

Lemma occurrences_snoc {A} `{EqDecision A} (x y : A) (l : list A) :
  occurrences x (l ++ [y])
  = occurrences x l + (if decide (y = x) then 1 else 0).
Proof.
  unfold occurrences. rewrite filter_app, length_app. f_equal.
  rewrite filter_cons, filter_nil. by destruct (decide (y = x)).
Qed.

Lemma occurrences_pos {A} `{EqDecision A} (x : A) (l : list A) :
  0 < occurrences x l ↔ x ∈ l.
Proof.
  unfold occurrences. induction l as [|y l IH].
  - rewrite filter_nil. simpl. split; [lia|]. by intros ?%elem_of_nil.
  - rewrite filter_cons, elem_of_cons. destruct (decide (y = x)) as [->|Hne].
    + simpl. split; [by left|lia].
    + rewrite IH. split; [by right | intros [->|?]; done].
Qed.

Lemma firstIndex_app_in {A} `{EqDecision A} (x : A) (l l' : list A) :
  x ∈ l → firstIndex x (l ++ l') = firstIndex x l.
Proof.
  induction l as [|y l IH]; [by intros ?%elem_of_nil|].
  intros Hin. simpl. destruct (decide (y = x)); [done|].
  rewrite IH; [done|]. apply elem_of_cons in Hin as [->|]; done.
Qed.

Lemma firstIndex_app_notin {A} `{EqDecision A} (x : A) (l l' : list A) :
  x ∉ l → firstIndex x (l ++ l') = length l + firstIndex x l'.
Proof.
  induction l as [|y l IH]; [done|].
  intros [Hne Hnin]%not_elem_of_cons. simpl. rewrite decide_False by done.
  by rewrite IH.
Qed.

Lemma firstIndex_lt {A} `{EqDecision A} (x : A) (l : list A) :
  x ∈ l → firstIndex x l < length l.
Proof.
  induction l as [|y l IH]; [by intros ?%elem_of_nil|].
  intros Hin. simpl. destruct (decide (y = x)); [lia|].
  apply elem_of_cons in Hin as [->|Hin]; [done|]. specialize (IH Hin). lia.
Qed.

Lemma firstIndex_lookup {A} `{EqDecision A} (x : A) (l : list A) :
  x ∈ l → l !! firstIndex x l = Some x.
Proof.
  induction l as [|y l IH]; [by intros ?%elem_of_nil|].
  intros Hin. simpl. destruct (decide (y = x)) as [->|Hne]; [done|].
  apply elem_of_cons in Hin as [->|Hin]; [done|]. by apply IH.
Qed.

Lemma tally_spec (ks : list (list Z)) : tallyInv ks (foldl bump [] ks).
Proof.
  induction ks as [|k ks IH] using rev_ind.
  - split; [constructor|]. split.
    + intros k n. split; [by intros ?%elem_of_nil|]. intros [-> H].
      apply occurrences_pos in H. by apply elem_of_nil in H.
    + intros i j e1 e2 H. done.
  - rewrite foldl_app. simpl. set (counts := foldl bump [] ks) in *.
    destruct IH as (Hnd & Hcnt & Hord). unfold bump.
    destruct (Map_get k counts) as [n|] eqn:Hget.
    + (* the key is already in the table *)
      assert (Hin : (k, n) ∈ counts) by by apply Map_get_lookup.
      assert (Hkin : k ∈ ks).
      { destruct (proj1 (Hcnt _ _) Hin) as [E Hp]. rewrite E in Hp.
        by apply occurrences_pos. }
      assert (Hkeys : (Map_set k (n + 1) counts).*1 = counts.*1).
      { apply Map_set_keys_in. rewrite Hget. eauto. }
      assert (Hnd' : NoDup (Map_set k (n + 1) counts).*1) by by rewrite Hkeys.
      split; [done|]. split.
      * intros k' m. rewrite <- Map_get_lookup by done.
        rewrite occurrences_snoc. destruct (decide (k = k')) as [<-|Hne].
        -- rewrite Map_get_set_eq. destruct (proj1 (Hcnt _ _) Hin) as [E Hp].
           simpl. split; [intros [= <-]; lia | intros [-> _]; f_equal; lia].
        -- rewrite Map_get_set_ne by done. rewrite Map_get_lookup by done.
           rewrite Hcnt. rewrite Nat.add_0_r. done.
      * intros i j e1 e2 H1 H2 Hij.
        assert (He : ∀ i e, Map_set k (n + 1) counts !! i = Some e →
                     ∃ e', counts !! i = Some e' ∧ e'.1 = e.1).
        { intros i0 e He.
          assert (Hf : (Map_set k (n + 1) counts).*1 !! i0 = Some e.1)
            by by rewrite list_lookup_fmap, He.
          rewrite Hkeys, list_lookup_fmap in Hf.
          destruct (counts !! i0) as [e'|]; [|done]. simpl in Hf.
          injection Hf as Hf. by exists e'. }
        destruct (He _ _ H1) as (e1' & H1' & <-).
        destruct (He _ _ H2) as (e2' & H2' & <-).
        assert (∀ i e, counts !! i = Some e → e.1 ∈ ks) as Hks.
        { intros i0 [k0 n0] H0. apply list_elem_of_lookup_2 in H0.
          destruct (proj1 (Hcnt _ _) H0) as [E Hp]. rewrite E in Hp.
          by apply occurrences_pos. }
        rewrite !firstIndex_app_in by eauto. eauto.
    + (* a new key is appended *)
      simpl. rewrite Map_set_keys_notin by done.
      assert (Hknin : k ∉ ks).
      { intros Hk%occurrences_pos. apply Map_get_None in Hget. apply Hget.
        apply list_elem_of_fmap. exists (k, occurrences k ks). split; [done|].
        by apply Hcnt. }
      split; [|split].
      * rewrite fmap_app. apply NoDup_app. split; [done|]. split.
        -- intros k' Hk' ->%list_elem_of_singleton.
           by apply Map_get_None in Hget.
        -- apply NoDup_singleton.
      * intros k' m. rewrite elem_of_app, list_elem_of_singleton, Hcnt.
        rewrite occurrences_snoc. destruct (decide (k = k')) as [<-|Hne].
        -- assert (occurrences k ks = 0) as ->.
           { destruct (occurrences k ks) eqn:E; [done|]. exfalso.
             apply Hknin, occurrences_pos. lia. }
           split; [intros [[-> ?]|[= ->]]; [lia|split; [done|lia]]|].
           intros [-> _]. by right.
        -- rewrite Nat.add_0_r. split; [intros [?|[= ? ?]]; done|]. by left.
      * intros i j e1 e2 H1 H2 Hij.
        assert (∀ i e, counts !! i = Some e → e.1 ∈ ks) as Hks.
        { intros i0 [k0 n0] H0. apply list_elem_of_lookup_2 in H0.
          destruct (proj1 (Hcnt _ _) H0) as [E Hp]. rewrite E in Hp.
          by apply occurrences_pos. }
        assert (Hi : i < length counts).
        { apply lookup_lt_Some in H2. rewrite length_app in H2. simpl in H2. lia. }
        rewrite lookup_app_l in H1 by done.
        rewrite (firstIndex_app_in e1.1) by eauto.
        destruct (decide (j < length counts)) as [Hj|Hj].
        -- rewrite lookup_app_l in H2 by done.
           rewrite (firstIndex_app_in e2.1) by eauto. eauto.
        -- rewrite lookup_app_r in H2 by lia.
           destruct (j - length counts) eqn:E; [|done]. injection H2 as <-.
           simpl. rewrite firstIndex_app_notin by done.
           pose proof (firstIndex_lt e1.1 ks (Hks _ _ H1)). lia.
Qed.

(** ** Selection of the best pair *)

Lemma selectBest_fold (l : list (list Z * nat)) :
  ∀ (acc : list Z * nat),
    let r := foldl (fun '(bestKey, bestFreq) '(key, freq) =>
                      if bestFreq <? freq then (key, freq)
                      else (bestKey, bestFreq)) acc l in
    (r = acc ∧ ∀ e, e ∈ l → e.2 ≤ acc.2)
    ∨ (∃ i, l !! i = Some r ∧ acc.2 < r.2
          ∧ (∀ j e, j < i → l !! j = Some e → e.2 < r.2)
          ∧ (∀ e, e ∈ l → e.2 ≤ r.2)).
Proof.
  induction l as [|[k f] l IH]; intros [bk bf]; cbn zeta.
  - left. split; [done|]. by intros e ?%elem_of_nil.
  - cbn [foldl]. destruct (Nat.ltb_spec bf f) as [Hlt|Hge].
    + destruct (IH (k, f)) as [[Hr Hall]|(i & Hi & Hlt' & Hbefore & Hall)];
        cbn zeta in *.
      * right. exists 0. rewrite Hr. simpl. split; [done|]. split; [done|].
        split; [intros; lia|]. intros e [->|He]%elem_of_cons; [done|].
        by apply Hall.
      * right. exists (S i). simpl in *. split; [done|]. split; [lia|]. split.
        -- intros [|j] e Hj He; simpl in He.
           ++ injection He as <-. simpl. lia.
           ++ eapply Hbefore; [|done]. lia.
        -- intros e [->|He]%elem_of_cons; [simpl; lia|]. by apply Hall.
    + destruct (IH (bk, bf)) as [[Hr Hall]|(i & Hi & Hlt' & Hbefore & Hall)];
        cbn zeta in *.
      * left. split; [done|]. intros e [->|He]%elem_of_cons; [done|].
        by apply Hall.
      * right. exists (S i). simpl in *. split; [done|]. split; [lia|]. split.
        -- intros [|j] e Hj He; simpl in He.
           ++ injection He as <-. simpl. lia.
           ++ eapply Hbefore; [|done]. lia.
        -- intros e [->|He]%elem_of_cons; [simpl; lia|]. by apply Hall.
Qed.

Lemma selectBest_spec (counts : list (list Z * nat)) :
  counts ≠ [] → (∀ e, e ∈ counts → 0 < e.2) →
  ∃ i, counts !! i = Some (selectBest counts)
       ∧ (∀ j e, j < i → counts !! j = Some e → e.2 < (selectBest counts).2)
       ∧ (∀ e, e ∈ counts → e.2 ≤ (selectBest counts).2).
Proof.
  intros Hne Hpos. unfold selectBest.
  destruct (selectBest_fold counts ([], 0))
    as [[Hr Hall]|(i & Hi & Hlt' & Hbefore & Hall)]; cbn zeta in *.
  - destruct counts as [|e counts]; [done|]. exfalso.
    specialize (Hall e ltac:(left)). specialize (Hpos e ltac:(left)).
    simpl in Hall. lia.
  - exists i. done.
Qed.

(** The selected key over a non-empty sequence of keys. *)
Lemma selectBest_keys (ks : list (list Z)) :
  ks ≠ [] →
  ∃ k f, selectBest (foldl bump [] ks) = (k, f)
    ∧ k ∈ ks ∧ f = occurrences k ks
    ∧ (∀ k', occurrences k' ks ≤ f)
    ∧ (∀ k', occurrences k' ks = f → firstIndex k ks ≤ firstIndex k' ks).
Proof.
  intros Hne. destruct (tally_spec ks) as (Hnd & Hcnt & Hord).
  set (counts := foldl bump [] ks) in *.
  assert (Hpos : ∀ e, e ∈ counts → 0 < e.2).
  { intros [k n] He. by apply Hcnt in He as [_ ?]. }
  assert (Hne' : counts ≠ []).
  { destruct ks as [|k0 ks]; [done|].
    assert (Hin : (k0, occurrences k0 (k0 :: ks)) ∈ counts).
    { apply Hcnt. split; [done|]. apply occurrences_pos. left. }
    intros E. rewrite E in Hin. by apply elem_of_nil in Hin. }
  destruct (selectBest_spec counts Hne' Hpos) as (i & Hi & Hbefore & Hall).
  destruct (selectBest counts) as [k f] eqn:Hsel. simpl in *.
  exists k, f. split; [done|].
  assert (Hkf : f = occurrences k ks ∧ 0 < f).
  { apply Hcnt. by eapply list_elem_of_lookup_2. }
  destruct Hkf as [Hf Hfpos].
  split; [apply occurrences_pos; lia|]. split; [done|]. split.
  - intros k'. destruct (occurrences k' ks) as [|n] eqn:E; [lia|].
    assert (Hin : (k', S n) ∈ counts) by (apply Hcnt; split; [done|lia]).
    apply Hall in Hin. done.
  - intros k' Hk'.
    assert (Hin : (k', f) ∈ counts) by (apply Hcnt; split; [done|lia]).
    apply list_elem_of_lookup in Hin as [j Hj].
    destruct (Nat.lt_trichotomy j i) as [Hlt|[->|Hgt]].
    + specialize (Hbefore _ _ Hlt Hj). simpl in Hbefore. lia.
    + rewrite Hi in Hj. by injection Hj as ->.
    + specialize (Hord _ _ _ _ Hi Hj Hgt). simpl in Hord. lia.
Qed.

(** ** The pair key *)

Lemma pairKey_inj (a b a' b' : list Z) :
  NulFree a → NulFree a' → pairKey a b = pairKey a' b' → a = a' ∧ b = b'.
Proof.
  unfold NulFree, pairKey. revert a'.
  induction a as [|x a IH]; intros [|x' a'] Ha Ha' Heq; simpl in *.
  - by injection Heq as ->.
  - injection Heq as <- _. exfalso. apply Ha'. left.
  - injection Heq as -> _. exfalso. apply Ha. left.
  - injection Heq as -> Heq. apply not_elem_of_cons in Ha as [_ Ha].
    apply not_elem_of_cons in Ha' as [_ Ha'].
    destruct (IH a' Ha Ha' Heq) as [-> ->]. done.
Qed.

Lemma splitGo_NulFree (b cur : list Z) :
  NulFree b → splitGo PAIR_SEP b cur = [cur ++ b].
Proof.
  unfold NulFree. revert cur. induction b as [|x b IH]; intros cur Hb; simpl.
  - by rewrite app_nil_r.
  - apply not_elem_of_cons in Hb as [Hx Hb].
    destruct (Z.eqb_spec x PAIR_SEP) as [->|_]; [done|].
    rewrite IH by done. by rewrite <- app_assoc.
Qed.

Lemma split_pairKey (a b : list Z) :
  NulFree a → NulFree b → split PAIR_SEP (pairKey a b) = [a; b].
Proof.
  unfold split, pairKey. intros Ha Hb.
  assert (H : ∀ cur, splitGo PAIR_SEP (a ++ [PAIR_SEP] ++ b) cur = [cur ++ a; b]).
  { unfold NulFree in Ha. induction a as [|x a IH]; intros cur; cbn [app splitGo].
    - rewrite Z.eqb_refl, app_nil_r. f_equal. by apply (splitGo_NulFree b []).
    - apply not_elem_of_cons in Ha as [Hx Ha].
      destruct (Z.eqb_spec x PAIR_SEP) as [->|_]; [done|].
      rewrite IH by done. by rewrite <- app_assoc. }
  apply (H []).
Qed.

Lemma splitGo_nonempty (s cur : list Z) : 1 ≤ length (splitGo PAIR_SEP s cur).
Proof.
  revert cur. induction s as [|x s IH]; intros cur; cbn [splitGo]; [done|].
  destruct (x =? PAIR_SEP)%Z; [cbn [length]; lia|apply IH].
Qed.

(** Every key has at least two fields, whatever the tokens hold. *)
Lemma split_pairKey_length (a b : list Z) :
  2 ≤ length (split PAIR_SEP (pairKey a b)).
Proof.
  unfold split, pairKey.
  assert (H : ∀ cur, 2 ≤ length (splitGo PAIR_SEP (a ++ PAIR_SEP :: b) cur)).
  { induction a as [|x a IH]; intros cur; cbn [app splitGo].
    - rewrite Z.eqb_refl. cbn [length].
      pose proof (splitGo_nonempty b []). lia.
    - destruct (x =? PAIR_SEP)%Z; [|apply IH].
      specialize (IH []). cbn [length]. lia. }
  apply H.
Qed.

(** ** Pairs of a chunk list *)

Lemma adjacentPairs_elem (tks : list (list Z)) (a b : list Z) :
  (a, b) ∈ adjacentPairs tks → a ∈ tks ∧ b ∈ tks.
Proof.
  unfold adjacentPairs. intros H.
  apply list_elem_of_lookup in H as [i Hi].
  apply lookup_zip_with_Some in Hi as (x & y & [= -> ->] & Hx & Hy).
  split; [by eapply list_elem_of_lookup_2|].
  rewrite lookup_tail in Hy. by eapply list_elem_of_lookup_2.
Qed.

Lemma allPairs_elem (chunks : list (list (list Z))) (a b : list Z) :
  (a, b) ∈ allPairs chunks →
  ∃ tks, tks ∈ chunks ∧ (a, b) ∈ adjacentPairs tks ∧ a ∈ tks ∧ b ∈ tks.
Proof.
  unfold allPairs. intros H.
  apply list_elem_of_In, in_concat in H as (l & Hl & Hab).
  apply in_map_iff in Hl as (tks & <- & Htks).
  apply list_elem_of_In in Hab, Htks.
  exists tks. split; [done|]. split; [done|]. by apply adjacentPairs_elem.
Qed.

Lemma allPairs_NulFree (chunks : list (list (list Z))) (a b : list Z) :
  Forall (Forall NulFree) chunks → (a, b) ∈ allPairs chunks →
  NulFree a ∧ NulFree b.
Proof.
  intros Hnf (tks & Htks & _ & Ha & Hb)%allPairs_elem.
  rewrite Forall_forall in Hnf. specialize (Hnf _ Htks).
  rewrite Forall_forall in Hnf. split; by apply Hnf.
Qed.

Lemma occurrences_fmap_inj {A B} `{EqDecision A} `{EqDecision B}
    (f : A → B) (x : A) (l : list A) :
  (∀ y, y ∈ l → f y = f x → y = x) →
  occurrences (f x) (f <$> l) = occurrences x l.
Proof.
  unfold occurrences. induction l as [|y l IH]; intros Hinj; [done|].
  rewrite fmap_cons, !filter_cons.
  assert (IH' : length (filter (λ y, y = f x) (f <$> l))
                = length (filter (λ y, y = x) l)).
  { apply IH. intros z Hz. apply Hinj. by right. }
  destruct (decide (y = x)) as [->|Hne].
  - rewrite decide_True by done. simpl. by rewrite IH'.
  - rewrite decide_False; [done|]. intros E. apply Hne, Hinj; [left|done].
Qed.

Lemma firstIndex_fmap_inj {A B} `{EqDecision A} `{EqDecision B}
    (f : A → B) (x : A) (l : list A) :
  (∀ y, y ∈ l → f y = f x → y = x) →
  firstIndex (f x) (f <$> l) = firstIndex x l.
Proof.
  induction l as [|y l IH]; intros Hinj; [done|].
  rewrite fmap_cons. simpl.
  destruct (decide (y = x)) as [->|Hne].
  - by rewrite decide_True.
  - rewrite decide_False.
    + f_equal. apply IH. intros z Hz. apply Hinj. by right.
    + intros E. apply Hne, Hinj; [left|done].
Qed.

Lemma occurrences_allPairs (p : list Z * list Z) (chunks : list (list (list Z))) :
  occurrences p (allPairs chunks)
  = sum_list (map (fun tks => occurrences p (adjacentPairs tks)) chunks).
Proof.
  unfold allPairs, occurrences. induction chunks as [|c chunks IH]; [done|].
  simpl. rewrite filter_app, length_app, IH. done.
Qed.

(** The selection loop on the count table of a chunk list. *)
Lemma selectBest_pairs (chunks : list (list (list Z))) :
  Forall (Forall NulFree) chunks → allPairs chunks ≠ [] →
  ∃ (a b : list Z) (f : nat),
    selectBest (countPairsAcrossChunks chunks) = (pairKey a b, f)
    ∧ split PAIR_SEP (pairKey a b) = [a; b]
    ∧ (a, b) ∈ allPairs chunks
    ∧ f = occurrences (a, b) (allPairs chunks)
    ∧ f = sum_list (map (fun tks => occurrences (a, b) (adjacentPairs tks)) chunks)
    ∧ (∀ p, occurrences p (allPairs chunks) ≤ f)
    ∧ (∀ p, occurrences p (allPairs chunks) = f →
         firstIndex (a, b) (allPairs chunks) ≤ firstIndex p (allPairs chunks)).
Proof.
  intros Hnf Hne. rewrite countPairsAcrossChunks_keys.
  set (keyOf := fun p : list Z * list Z => pairKey p.1 p.2).
  set (ps := allPairs chunks) in *.
  assert (Hinj : ∀ p q, p ∈ ps → q ∈ ps → keyOf q = keyOf p → q = p).
  { intros [a b] [a' b'] Hp Hq Heq.
    apply (allPairs_NulFree _ _ _ Hnf) in Hp as [Ha Hb].
    apply (allPairs_NulFree _ _ _ Hnf) in Hq as [Ha' Hb'].
    destruct (pairKey_inj _ _ _ _ Ha' Ha Heq) as [E1 E2]. simpl in *.
    congruence. }
  destruct (selectBest_keys (map keyOf ps)) as (k & f & Hsel & Hk & Hf & Hmax & Hfirst).
  { destruct ps; done. }
  apply list_elem_of_fmap in Hk as ([a b] & -> & Hab).
  assert (Hocc : ∀ p, p ∈ ps → occurrences (keyOf p) (keyOf <$> ps) = occurrences p ps).
  { intros p Hp. apply occurrences_fmap_inj. intros q Hq. by apply Hinj. }
  assert (Hfst : ∀ p, p ∈ ps → firstIndex (keyOf p) (keyOf <$> ps) = firstIndex p ps).
  { intros p Hp. apply firstIndex_fmap_inj. intros q Hq. by apply Hinj. }
  change (map keyOf ps) with (keyOf <$> ps) in *.
  rewrite Hocc in Hf by done.
  exists a, b, f. split; [done|].
  destruct (allPairs_NulFree _ _ _ Hnf Hab) as [Ha Hb].
  split; [by apply split_pairKey|]. split; [done|]. split; [done|].
  split; [by rewrite <- occurrences_allPairs|]. split.
  - intros p. destruct (decide (p ∈ ps)) as [Hp|Hp].
    + rewrite <- Hocc by done. apply Hmax.
    + destruct (occurrences p ps) eqn:E; [lia|]. exfalso.
      apply Hp, occurrences_pos. lia.
  - intros p Hp.
    assert (Hpin : p ∈ ps).
    { apply occurrences_pos. rewrite Hp, Hf. by apply occurrences_pos. }
    rewrite <- (Hfst (a, b)), <- (Hfst p) by done. apply Hfirst.
    by rewrite Hocc.
Qed.

(** ** The main loop *)

Lemma Sym_NulFree (t : list Z) : Sym t → NulFree t.
Proof.
  unfold Sym, NulFree, PAIR_SEP. rewrite Forall_forall. intros H Hin.
  specialize (H _ Hin). lia.
Qed.

Lemma Sym_chunks_NulFree (chunks : list (list (list Z))) :
  Forall (Forall Sym) chunks → Forall (Forall NulFree) chunks.
Proof.
  intros H. eapply Forall_impl; [exact H|]. intros tks Htks.
  eapply Forall_impl; [exact Htks|]. apply Sym_NulFree.
Qed.

Lemma mergeSpec_Forall (P : list Z → Prop) (a b : list Z) (tks : list (list Z)) :
  P (a ++ b) → Forall P tks → Forall P (mergeSpec a b tks).
Proof.
  intros Hab. induction tks as [|rest IH|x rest Hne IH] using (merge_ind a b).
  - done.
  - intros H. rewrite mergeSpec_hit. apply Forall_cons. split; [done|].
    apply IH. by apply Forall_cons in H as [_ [_ H]%Forall_cons].
  - intros [Hx H]%Forall_cons. rewrite mergeSpec_miss by done.
    apply Forall_cons. split; [done|]. by apply IH.
Qed.

Lemma adjacentPairs_cons (x y : list Z) (rest : list (list Z)) :
  adjacentPairs (x :: y :: rest) = (x, y) :: adjacentPairs (y :: rest).
Proof. done. Qed.

Lemma mergeCount_pos (a b : list Z) (tks : list (list Z)) :
  (a, b) ∈ adjacentPairs tks → 0 < mergeCount a b tks.
Proof.
  induction tks as [|rest IH|x rest Hne IH] using (merge_ind a b).
  - by intros ?%elem_of_nil.
  - intros _. rewrite mergeCount_hit. lia.
  - intros Hin. rewrite mergeCount_miss by done. apply IH.
    destruct rest as [|y rest]; [by apply elem_of_nil in Hin|].
    rewrite adjacentPairs_cons in Hin.
    apply elem_of_cons in Hin as [[= -> ->]|Hin]; [|done].
    exfalso. by apply Hne.
Qed.

Lemma mergeCount_le (a b : list Z) (tks : list (list Z)) :
  mergeCount a b tks ≤ occurrences (a, b) (adjacentPairs tks).
Proof.
  unfold occurrences.
  induction tks as [tks IH] using (induction_ltof1 _ (@length _)).
  unfold ltof in IH. destruct tks as [|x [|y rest]]; [done..|].
  rewrite adjacentPairs_cons, filter_cons.
  destruct (decide (x = a ∧ y = b)) as [[-> ->]|Hne].
  - rewrite mergeCount_hit, decide_True by done. cbn [length].
    specialize (IH rest ltac:(simpl; lia)).
    destruct rest as [|z rest]; [done|].
    rewrite adjacentPairs_cons, filter_cons.
    destruct (decide _); cbn [length]; lia.
  - rewrite mergeCount_miss by (intros [-> [= ->]]; by apply Hne).
    specialize (IH (y :: rest) ltac:(simpl; lia)).
    destruct (decide _); cbn [length]; [apply Nat.le_le_succ_r|]; exact IH.
Qed.

Lemma merge_chunks_length (a b : list Z) (chunks : list (list (list Z))) :
  length (concat (map (mergeSpec a b) chunks))
  + sum_list (map (mergeCount a b) chunks)
  = length (concat chunks).
Proof.
  induction chunks as [|c chunks IH]; [done|].
  rewrite !map_cons, !concat_cons, !length_app.
  change (sum_list (mergeCount a b c :: map (mergeCount a b) chunks))
    with (mergeCount a b c + sum_list (map (mergeCount a b) chunks)).
  pose proof (mergeSpec_length a b c). lia.
Qed.

Lemma merge_chunks_count_pos (a b : list Z) (chunks : list (list (list Z))) :
  (a, b) ∈ allPairs chunks → 0 < sum_list (map (mergeCount a b) chunks).
Proof.
  intros (tks & Htks & Hab & _)%allPairs_elem.
  apply mergeCount_pos in Hab.
  induction chunks as [|c chunks IH]; [by apply elem_of_nil in Htks|].
  rewrite map_cons.
  change (sum_list (mergeCount a b c :: map (mergeCount a b) chunks))
    with (mergeCount a b c + sum_list (map (mergeCount a b) chunks)).
  apply elem_of_cons in Htks as [<-|Htks]; [lia|]. specialize (IH Htks). lia.
Qed.

Lemma merge_chunks_count_le (a b : list Z) (chunks : list (list (list Z))) :
  sum_list (map (mergeCount a b) chunks) ≤ occurrences (a, b) (allPairs chunks).
Proof.
  rewrite occurrences_allPairs.
  induction chunks as [|c chunks IH]; [done|].
  rewrite !map_cons.
  change (sum_list (?x :: ?l)) with (x + sum_list l).
  pose proof (mergeCount_le a b c). lia.
Qed.

Lemma merge_chunks_concat (a b : list Z) (chunks : list (list (list Z))) :
  concat (concat (map (mergeSpec a b) chunks)) = concat (concat chunks).
Proof.
  induction chunks as [|c chunks IH]; [done|].
  cbn [map concat]. rewrite !concat_app, IH, mergeSpec_concat. done.
Qed.

Lemma mapM_mergePairInChunk (pair : list (list Z)) (chunks : list (list (list Z))) :
  mapM (fun chunk => mergePairInChunk chunk pair) chunks
  = Some (map (mergeSpec (at_ pair 0) (at_ pair 1)) chunks).
Proof.
  induction chunks as [|c chunks IH]; [done|].
  cbn [mapM]. rewrite mergePairInChunk_spec, IH. done.
Qed.

Lemma countPairs_nil (chunks : list (list (list Z))) :
  countPairsAcrossChunks chunks = [] ↔ allPairs chunks = [].
Proof.
  rewrite countPairsAcrossChunks_keys.
  set (ks := map _ (allPairs chunks)).
  destruct (tally_spec ks) as (_ & Hcnt & _). split.
  - intros E. rewrite E in Hcnt. destruct (allPairs chunks) as [|p ps]; [done|].
    exfalso. subst ks. cbn [map] in Hcnt.
    set (k := pairKey p.1 p.2) in *.
    assert (Hin : (k, occurrences k (k :: map (λ p, pairKey p.1 p.2) ps)) ∈ @nil (list Z * nat)).
    { apply Hcnt. split; [done|]. apply occurrences_pos. left. }
    by apply elem_of_nil in Hin.
  - intros E. subst ks. by rewrite E.
Qed.

Lemma bpeLoop_Trace (fuel : nat) (maxMerges : option Z) :
  ∀ (chunks : list (list (list Z))) (idx : nat) (steps : list BPEStep),
    Forall (Forall NulFree) chunks →
    length (concat chunks) < fuel →
    ∃ rest, bpeLoop fuel maxMerges chunks idx steps = Some (steps ++ rest)
            ∧ Trace maxMerges chunks idx rest.
Proof.
  induction fuel as [|fuel IH]; intros chunks idx steps Hnf Hfuel; [lia|].
  cbn [bpeLoop].
  destruct (Nat.eqb_spec (length (countPairsAcrossChunks chunks)) 0) as [E|E].
  { exists []. rewrite app_nil_r. split; [done|]. apply Trace_stop. left.
    apply countPairs_nil. by destruct (countPairsAcrossChunks chunks). }
  assert (Hne : allPairs chunks ≠ []).
  { intros H. apply countPairs_nil in H. by rewrite H in E. }
  destruct (selectBest_pairs chunks Hnf Hne)
    as (a & b & f & Hsel & Hsplit & Hab & Hf & _ & Hmax & Hfirst).
  rewrite Hsel. destruct (Nat.ltb_spec f 2) as [Hlt|Hge].
  { exists []. rewrite app_nil_r. split; [done|]. apply Trace_stop. right. left.
    by rewrite Hsel. }
  destruct (overBound maxMerges idx) eqn:Hb.
  { exists []. rewrite app_nil_r. split; [done|]. apply Trace_stop. by right; right. }
  rewrite Hsplit, mapM_mergePairInChunk. cbn [at_ nth mbind option_bind].
  set (chunks' := map (mergeSpec a b) chunks).
  destruct (allPairs_NulFree _ _ _ Hnf Hab) as [Ha Hb'].
  destruct (IH chunks' (idx + 1)
              (steps ++ [mkStep idx (Some [a; b]) (Some f) (Some (a ++ b))
                           (concat chunks')])) as (rest & Hrun & Htr).
  - subst chunks'. rewrite Forall_forall in Hnf. apply Forall_forall.
    intros c' (c & -> & Hc)%list_elem_of_fmap. apply mergeSpec_Forall.
    + unfold NulFree in *. rewrite elem_of_app. tauto.
    + by apply Hnf.
  - pose proof (merge_chunks_length a b chunks).
    pose proof (merge_chunks_count_pos a b chunks Hab). subst chunks'. lia.
  - eexists (_ :: rest). rewrite Hrun, <- app_assoc. split; [done|].
    replace (idx + 1) with (S idx) in Htr by lia.
    by apply Trace_merge.
Qed.

(** ** The matcher *)

Lemma matchStar_suffix {A} (p : Z → bool) (s : list Z) (k : list Z → option A)
    (x : A) :
  matchStar p s k = Some x → ∃ s', s' `suffix_of` s ∧ k s' = Some x.
Proof.
  induction s as [|c s IH]; simpl.
  - intros H. by exists [].
  - destruct (p c); [|intros H; by exists (c :: s)].
    destruct (matchStar p s k) as [y|] eqn:E.
    + intros [= ->]. destruct (IH eq_refl) as (s' & Hs' & Hk).
      exists s'. split; [by apply suffix_cons_r|done].
    + intros H. by exists (c :: s).
Qed.

Lemma matchRe_suffix (r : regex) :
  ∀ {A} (s : list Z) (k : list Z → option A) (x : A),
    matchRe r s k = Some x →
    ∃ s', s' `suffix_of` s ∧ k s' = Some x
          ∧ (consumes r = true → length s' < length s).
Proof.
  induction r as [p|r1 IH1 r2 IH2|r1 IH1 r2 IH2|r1 IH1|p|r1 IH1];
    intros A s k x; cbn [matchRe consumes].
  - destruct s as [|c s]; [done|]. destruct (p c); [|done]. intros H.
    exists s. split; [apply suffix_cons_r; done|]. split; [done|]. simpl. lia.
  - intros H. apply IH1 in H as (s1 & Hs1 & H & Hc1).
    apply IH2 in H as (s2 & Hs2 & H & Hc2).
    exists s2. split; [by etrans|]. split; [done|].
    apply suffix_length in Hs1, Hs2.
    intros [Hc|Hc]%orb_true_iff; [specialize (Hc1 Hc)|specialize (Hc2 Hc)]; lia.
  - destruct (matchRe r1 s k) as [y|] eqn:E.
    + intros [= ->]. apply IH1 in E as (s1 & Hs1 & H & Hc1).
      exists s1. split; [done|]. split; [done|].
      intros [Hc _]%andb_true_iff. auto.
    + intros H. apply IH2 in H as (s2 & Hs2 & H & Hc2).
      exists s2. split; [done|]. split; [done|].
      intros [_ Hc]%andb_true_iff. auto.
  - destruct (matchRe r1 s k) as [y|] eqn:E.
    + intros [= ->]. apply IH1 in E as (s1 & Hs1 & H & _).
      exists s1. done.
    + intros H. exists s. done.
  - destruct s as [|c s]; [done|]. destruct (p c); [|done]. intros H.
    apply matchStar_suffix in H as (s' & Hs' & H).
    exists s'. split; [by apply suffix_cons_r|]. split; [done|].
    apply suffix_length in Hs'. simpl. lia.
  - destruct (matchRe r1 s _); [done|]. intros H. exists s. done.
Qed.

Lemma matchStar_total {A} (p : Z → bool) (s : list Z) (k : list Z → option A) :
  (∀ s', is_Some (k s')) → is_Some (matchStar p s k).
Proof.
  intros Hk. induction s as [|c s IH]; simpl; [done|].
  destruct (p c); [|done]. by destruct (matchStar p s k).
Qed.

Lemma matchPlus_total {A} (p : Z → bool) (c : Z) (s : list Z)
    (k : list Z → option A) :
  p c = true → (∀ s', is_Some (k s')) → is_Some (matchRe (Plus p) (c :: s) k).
Proof. intros Hp Hk. simpl. rewrite Hp. by apply matchStar_total. Qed.

Lemma matchAlt_l {A} (r1 r2 : regex) (s : list Z) (k : list Z → option A) :
  is_Some (matchRe r1 s k) → is_Some (matchRe (Alt r1 r2) s k).
Proof. intros [x Hx]. simpl. rewrite Hx. done. Qed.

Lemma matchAlt_r {A} (r1 r2 : regex) (s : list Z) (k : list Z → option A) :
  is_Some (matchRe r2 s k) → is_Some (matchRe (Alt r1 r2) s k).
Proof. intros H. simpl. by destruct (matchRe r1 s k). Qed.

Lemma matchOptPlus_total {A} (r : regex) (p : Z → bool) (c : Z) (s : list Z)
    (k : list Z → option A) :
  p c = true → (∀ s', is_Some (k s')) →
  is_Some (matchRe (Seq (Opt r) (Plus p)) (c :: s) k).
Proof.
  intros Hp Hk. cbn [matchRe].
  destruct (matchRe r (c :: s) _); [done|]. by apply matchPlus_total.
Qed.

Section Matcher.
Variables isLetter isNumber : Z → bool.

Lemma GPT2_PAT_consumes : consumes (GPT2_PAT isLetter isNumber) = true.
Proof. reflexivity. Qed.

Lemma matchHere_nil : matchHere isLetter isNumber [] = None.
Proof. reflexivity. Qed.

Lemma matchHere_total (c : Z) (s : list Z) :
  is_Some (matchHere isLetter isNumber (c :: s)).
Proof.
  unfold matchHere, GPT2_PAT.
  assert (Hk : ∀ s' : list Z, is_Some (Some s')) by (intros; done).
  do 7 apply matchAlt_r.
  destruct (isLetter c) eqn:HL.
  { by apply matchAlt_l, matchOptPlus_total. }
  apply matchAlt_r.
  destruct (isNumber c) eqn:HN.
  { by apply matchAlt_l, matchOptPlus_total. }
  apply matchAlt_r.
  destruct (isSpace c) eqn:HS.
  - do 2 apply matchAlt_r. by apply matchPlus_total.
  - apply matchAlt_l, matchOptPlus_total; [|done]. by rewrite HS, HL, HN.
Qed.

Lemma matchHere_split (s rest : list Z) :
  matchHere isLetter isNumber s = Some rest →
  ∃ pre, s = pre ++ rest ∧ pre ≠ []
         ∧ take (length s - length rest) s = pre.
Proof.
  intros H. apply matchRe_suffix in H as (s' & [pre ->] & [= ->] & Hlen).
  specialize (Hlen GPT2_PAT_consumes). exists pre. split; [done|].
  rewrite length_app in *. split.
  - intros ->. simpl in Hlen. lia.
  - replace (length pre + length rest - length rest) with (length pre) by lia.
    by rewrite take_app_length.
Qed.

Lemma search_cons (c : Z) (s : list Z) :
  ∃ pre rest, search isLetter isNumber (c :: s) = Some (pre, rest)
              ∧ c :: s = pre ++ rest ∧ pre ≠ [].
Proof.
  destruct (matchHere_total c s) as [rest Hrest].
  destruct (matchHere_split _ _ Hrest) as (pre & Hs & Hpre & Htake).
  exists pre, rest. cbn [search]. rewrite Hrest, Htake. done.
Qed.

(** The chunks found by the global match: non-empty, and covering the whole
    subject. *)
Lemma matchLoop_spec (fuel : nat) :
  ∀ s : list Z, length s < fuel →
    ∃ chunks : list (list Z),
      matchLoop isLetter isNumber fuel s = Some (map codeUnits chunks)
      ∧ concat chunks = s ∧ Forall (fun m => m ≠ []) chunks.
Proof.
  induction fuel as [|fuel IH]; intros s Hfuel; [lia|].
  cbn [matchLoop]. destruct s as [|c s].
  - exists []. cbn [search]. rewrite matchHere_nil. done.
  - destruct (search_cons c s) as (pre & rest & -> & Hs & Hpre).
    assert (Hlen : length (c :: s) = length pre + length rest)
      by by rewrite Hs, length_app.
    destruct (Nat.eqb_spec (length pre) 0) as [E|_].
    { by destruct pre. }
    destruct pre as [|c' pre]; [done|]. simpl in Hlen.
    destruct (IH rest ltac:(simpl in *; lia)) as (chunks & -> & Hcat & Hne).
    exists ((c' :: pre) :: chunks). split; [done|]. split.
    + by rewrite concat_cons, Hcat.
    + by apply Forall_cons.
Qed.

End Matcher.

(** ** UTF-16 and UTF-8 *)

Lemma codePoints_pair (h l : Z) (rest : list Z) :
  isHighSurrogate h = true → isLowSurrogate l = true →
  codePoints (h :: l :: rest)
  = (0x10000 + (h - 0xD800) * 0x400 + (l - 0xDC00))%Z :: codePoints rest.
Proof. intros Hh Hl. cbn [codePoints]. by rewrite Hh, Hl. Qed.

Lemma codePoints_single (u : Z) (rest : list Z) :
  ¬ (isHighSurrogate u = true ∧ head (isLowSurrogate <$> rest) = Some true) →
  codePoints (u :: rest) = u :: codePoints rest.
Proof.
  destruct rest as [|l rest]; [done|]. intros Hn. cbn [codePoints].
  destruct (isHighSurrogate u) eqn:Hh; [|done].
  destruct (isLowSurrogate l) eqn:Hl; [|done].
  exfalso. apply Hn. simpl. by rewrite Hl.
Qed.

(** Induction along the decoding of a string into code points. *)
Lemma codePoints_ind (P : list Z → Prop) :
  P [] →
  (∀ h l rest, isHighSurrogate h = true → isLowSurrogate l = true →
     P rest → P (h :: l :: rest)) →
  (∀ u rest,
     ¬ (isHighSurrogate u = true ∧ head (isLowSurrogate <$> rest) = Some true) →
     P rest → P (u :: rest)) →
  ∀ s, P s.
Proof.
  intros Hnil Hpair Hsingle s.
  induction s as [s IH] using (induction_ltof1 _ (@length _)).
  unfold ltof in IH. destruct s as [|u rest]; [done|].
  destruct (decide (isHighSurrogate u = true
                    ∧ head (isLowSurrogate <$> rest) = Some true)) as [[Hh Hl]|Hn].
  - destruct rest as [|l rest]; [done|]. simpl in Hl. injection Hl as Hl.
    apply Hpair; [done..|]. apply IH. simpl. lia.
  - apply Hsingle; [done|]. apply IH. simpl. lia.
Qed.

Lemma codePoints_nil_inv (s : list Z) : codePoints s = [] → s = [].
Proof. destruct s as [|h [|l rest]]; [done..|]. simpl. by destruct (_ && _). Qed.

Lemma codePoints_range (s : list Z) :
  js_string s → Forall (fun c => 0 <= c < 0x110000)%Z (codePoints s).
Proof.
  unfold js_string.
  induction s as [|h l rest Hh Hl IH|u rest Hn IH] using codePoints_ind.
  - done.
  - intros [_ [_ H]%Forall_cons]%Forall_cons. rewrite codePoints_pair by done.
    apply Forall_cons. split; [|by apply IH].
    unfold isHighSurrogate, isLowSurrogate in *. lia.
  - intros [Hu H]%Forall_cons. rewrite codePoints_single by done.
    apply Forall_cons. split; [lia|by apply IH].
Qed.

Lemma noPair_cons (c : Z) (cps : list Z) :
  noPair (c :: cps)
  ↔ ¬ (isHighSurrogate c = true ∧ head (isLowSurrogate <$> cps) = Some true)
    ∧ noPair cps.
Proof.
  destruct cps as [|l cps]; cbn [noPair].
  - split; [|done]. intros _. split; [|done]. by intros [_ [=]].
  - simpl. split; intros [H1 H2]; (split; [|done]); intros [? ?]; apply H1;
      split; congruence.
Qed.

Lemma codePoints_noPair (s : list Z) : noPair (codePoints s).
Proof.
  induction s as [|h l rest Hh Hl IH|u rest Hn IH] using codePoints_ind.
  - done.
  - rewrite codePoints_pair by done. apply noPair_cons. split; [|done].
    intros [H _]. unfold isHighSurrogate, isLowSurrogate in *. lia.
  - rewrite codePoints_single by done. apply noPair_cons. split; [|done].
    intros [Hu Hhead]. apply Hn. split; [done|].
    destruct rest as [|l [|l' rest]]; [done| |].
    + done.
    + destruct (decide (isHighSurrogate l = true ∧ isLowSurrogate l' = true))
        as [[H1 H2]|Hno].
      * rewrite codePoints_pair in Hhead by done. simpl in Hhead.
        injection Hhead as Hhead.
        unfold isHighSurrogate, isLowSurrogate in *. lia.
      * rewrite codePoints_single in Hhead; [done|].
        intros [? ?]. apply Hno. split; [done|]. simpl in *. congruence.
Qed.

Lemma noPair_app (l1 l2 : list Z) : noPair (l1 ++ l2) → noPair l1 ∧ noPair l2.
Proof.
  induction l1 as [|c l1 IH]; [done|].
  rewrite <- app_comm_cons, !noPair_cons. intros [Hc H].
  destruct (IH H) as [H1 H2]. split; [|done]. split; [|done].
  intros [Hh Hl]. apply Hc. split; [done|]. by destruct l1.
Qed.

Lemma codeUnit_head_low (c : Z) :
  (0 <= c < 0x110000)%Z →
  head (isLowSurrogate <$> codeUnit c) = Some true → isLowSurrogate c = true.
Proof.
  intros Hc. unfold codeUnit. destruct (Z.ltb_spec c 0x10000) as [Hlt|Hge]; simpl.
  - by intros [= ->].
  - intros [= H]. exfalso. unfold isLowSurrogate in H.
    assert (0 <= (c - 0x10000) / 0x400 < 0x400)%Z.
    { split; [apply Z.div_pos; lia|apply Z.div_lt_upper_bound; lia]. }
    lia.
Qed.

Lemma codePoints_codeUnits (cps : list Z) :
  Forall (fun c => 0 <= c < 0x110000)%Z cps → noPair cps →
  codePoints (codeUnits cps) = cps.
Proof.
  induction cps as [|c cps IH]; [done|].
  intros [Hc Hr]%Forall_cons [Hn Hnp]%noPair_cons.
  unfold codeUnits in *. cbn [flat_map]. unfold codeUnit at 1.
  destruct (Z.ltb_spec c 0x10000) as [Hlt|Hge].
  - cbn [app]. rewrite codePoints_single; [by rewrite IH|].
    intros [Hh Hl]. apply Hn. split; [done|].
    destruct cps as [|c' cps]; [done|]. cbn [flat_map] in Hl.
    apply Forall_cons in Hr as [Hc' _]. simpl.
    rewrite (codeUnit_head_low c' Hc'); [done|].
    revert Hl. unfold codeUnit. by destruct (c' <? 65536)%Z.
  - assert (0 <= (c - 0x10000) / 0x400 < 0x400)%Z.
    { split; [apply Z.div_pos; lia|apply Z.div_lt_upper_bound; lia]. }
    assert (0 <= (c - 0x10000) mod 0x400 < 0x400)%Z by (apply Z.mod_pos_bound; lia).
    cbn [app]. rewrite codePoints_pair.
    + rewrite IH by done. f_equal.
      pose proof (Z.div_mod (c - 0x10000) 0x400 ltac:(lia)). lia.
    + unfold isHighSurrogate. lia.
    + unfold isLowSurrogate. lia.
Qed.

Lemma codeUnit_codePoints (s : list Z) :
  js_string s → codeUnits (codePoints s) = s.
Proof.
  unfold js_string, codeUnits.
  induction s as [|h l rest Hh Hl IH|u rest Hn IH] using codePoints_ind.
  - done.
  - intros [_ [_ H]%Forall_cons]%Forall_cons. rewrite codePoints_pair by done.
    cbn [flat_map]. rewrite IH by done. unfold codeUnit.
    unfold isHighSurrogate, isLowSurrogate in *.
    destruct (Z.ltb_spec (65536 + (h - 55296) * 1024 + (l - 56320)) 65536); [lia|].
    replace (65536 + (h - 55296) * 1024 + (l - 56320) - 65536)%Z
      with ((l - 56320) + (h - 55296) * 1024)%Z by lia.
    rewrite Z.div_add, Z.mod_add by lia.
    rewrite Z.div_small, Z.mod_small by lia. simpl. f_equal; [lia|f_equal; lia].
  - intros [Hu H]%Forall_cons. rewrite codePoints_single by done.
    cbn [flat_map]. rewrite IH by done. unfold codeUnit.
    destruct (Z.ltb_spec u 65536); [done|lia].
Qed.

Lemma lor_byte (a b : Z) :
  (0 <= a < 256)%Z → (0 <= b < 256)%Z → (0 <= Z.lor a b < 256)%Z.
Proof.
  intros Ha Hb. split; [apply Z.lor_nonneg; lia|].
  destruct (decide (Z.lor a b = 0%Z)) as [->|Hne]; [lia|].
  assert (0 <= Z.lor a b)%Z by (apply Z.lor_nonneg; lia).
  change 256%Z with (2 ^ 8)%Z. apply Z.log2_lt_pow2; [lia|].
  rewrite Z.log2_lor by lia. apply Z.max_lub_lt.
  - destruct (decide (a = 0%Z)) as [->|?]; [done|]. apply Z.log2_lt_pow2; lia.
  - destruct (decide (b = 0%Z)) as [->|?]; [done|]. apply Z.log2_lt_pow2; lia.
Qed.

Lemma utf8_bytes (c : Z) :
  (0 <= c < 0x110000)%Z → Forall (fun b => 0 <= b < 256)%Z (utf8 c).
Proof.
  intros Hc. unfold utf8.
  assert (Hland : ∀ x, (0 <= Z.land x 0x3F < 64)%Z).
  { intros x. change 0x3F%Z with (Z.ones 6). rewrite Z.land_ones by lia.
    apply Z.mod_pos_bound. lia. }
  assert (Hshr : ∀ n m, (0 <= n)%Z → (c < m * 2 ^ n)%Z → (0 <= Z.shiftr c n < m)%Z).
  { intros n m Hn Hm. rewrite Z.shiftr_div_pow2 by lia. split.
    - apply Z.div_pos; lia.
    - apply Z.div_lt_upper_bound; lia. }
  destruct (Z.ltb_spec c 0x80); [repeat constructor; lia|].
  destruct (Z.ltb_spec c 0x800).
  { pose proof (Hshr 6 32 ltac:(lia) ltac:(lia))%Z. pose proof (Hland c).
    repeat constructor; apply lor_byte; lia. }
  destruct (Z.ltb_spec c 0x10000).
  { pose proof (Hshr 12 16 ltac:(lia) ltac:(lia))%Z. pose proof (Hland c).
    pose proof (Hland (Z.shiftr c 6)).
    repeat constructor; apply lor_byte; lia. }
  pose proof (Hshr 18 8 ltac:(lia) ltac:(lia))%Z. pose proof (Hland c).
  pose proof (Hland (Z.shiftr c 6)). pose proof (Hland (Z.shiftr c 12)).
  repeat constructor; apply lor_byte; lia.
Qed.

Lemma scalarValue_range (c : Z) :
  (0 <= c < 0x110000)%Z → (0 <= scalarValue c < 0x110000)%Z.
Proof. intros Hc. unfold scalarValue. destruct (_ || _); lia. Qed.

Lemma TextEncoder_encode_bytes (s : list Z) :
  js_string s → Forall (fun b => 0 <= b < 256)%Z (TextEncoder_encode s).
Proof.
  intros Hs%codePoints_range. unfold TextEncoder_encode.
  induction Hs as [|c cps Hc _ IH]; [done|].
  cbn [flat_map]. apply Forall_app. split; [|done].
  by apply utf8_bytes, scalarValue_range.
Qed.

(** Encoding chunk by chunk gives the bytes of the whole string. *)
Lemma encode_chunks (s : list Z) (chunks : list (list Z)) :
  js_string s → concat chunks = codePoints s →
  concat (map codeUnits chunks) = s
  ∧ concat (map TextEncoder_encode (map codeUnits chunks)) = TextEncoder_encode s.
Proof.
  intros Hs Hcat. split.
  - rewrite <- (codeUnit_codePoints s Hs), <- Hcat. unfold codeUnits.
    clear. induction chunks as [|c chunks IH]; [done|].
    cbn [map concat]. by rewrite flat_map_app, IH.
  - unfold TextEncoder_encode at 2. rewrite <- Hcat.
    pose proof (codePoints_range s Hs) as Hr.
    pose proof (codePoints_noPair s) as Hnp. rewrite <- Hcat in Hr, Hnp.
    clear Hcat Hs. induction chunks as [|c chunks IH]; [done|].
    cbn [map concat] in *. apply Forall_app in Hr as [Hr1 Hr2].
    apply noPair_app in Hnp as [Hn1 Hn2].
    rewrite flat_map_app, IH by done. f_equal.
    unfold TextEncoder_encode. by rewrite codePoints_codeUnits.
Qed.

(** ** Decoding symbols *)

Lemma UNICODE_TO_BYTE_lookup (b : Z) :
  (0 <= b < 256)%Z → UNICODE_TO_BYTE !! [specTable b] = Some b.
Proof.
  intros Hb.
  assert (Hc : forallb (fun b => bool_decide
              (UNICODE_TO_BYTE !! [specTable b] = Some b)) (seqZ 0 256) = true)
    by (vm_compute; reflexivity).
  rewrite forallb_forall in Hc. specialize (Hc b).
  rewrite <- list_elem_of_In, elem_of_seqZ in Hc.
  specialize (Hc ltac:(lia)). by apply bool_decide_eq_true in Hc.
Qed.

Lemma UNICODE_TO_BYTE_inverse (t : list Z) (b : Z) :
  UNICODE_TO_BYTE !! t = Some b ↔ BYTE_TO_UNICODE !! b = Some t.
Proof.
  split.
  - assert (E : UNICODE_TO_BYTE
                = list_to_map (prod_swap <$> map_to_list BYTE_TO_UNICODE))
      by (vm_compute; reflexivity).
    rewrite E. intros H%elem_of_list_to_map_2.
    apply list_elem_of_fmap in H as ([b' t'] & [= -> ->] & H).
    by apply elem_of_map_to_list in H.
  - intros H.
    assert (Hb : (0 <= b < 256)%Z).
    { assert (Hd : b ∈ dom BYTE_TO_UNICODE) by (apply elem_of_dom; eauto).
      rewrite BYTE_TO_UNICODE_dom, elem_of_list_to_set, elem_of_seqZ in Hd. lia. }
    rewrite BYTE_TO_UNICODE_lookup in H by done. injection H as <-.
    by apply UNICODE_TO_BYTE_lookup.
Qed.

Lemma byteToken_spec (b : Z) : (0 <= b < 256)%Z → byteToken b = [specTable b].
Proof. intros Hb. unfold byteToken. by rewrite BYTE_TO_UNICODE_lookup. Qed.

Lemma byteToken_Sym (b : Z) : Sym (byteToken b).
Proof.
  unfold byteToken. destruct (BYTE_TO_UNICODE !! b) as [t|] eqn:E; [|constructor].
  assert (Hb : (0 <= b < 256)%Z).
  { assert (Hd : b ∈ dom BYTE_TO_UNICODE) by (apply elem_of_dom; eauto).
    rewrite BYTE_TO_UNICODE_dom, elem_of_list_to_set, elem_of_seqZ in Hd. lia. }
  rewrite BYTE_TO_UNICODE_lookup in E by done. injection E as <-.
  simpl. repeat constructor. pose proof (specTable_range b Hb). lia.
Qed.

Lemma decodeSymbols_byteTokens (bytes : list Z) :
  Forall (fun b => 0 <= b < 256)%Z bytes →
  decodeSymbols (concat (map byteToken bytes)) = Some bytes.
Proof.
  unfold decodeSymbols. induction 1 as [|b bytes Hb _ IH]; [done|].
  cbn [map concat]. rewrite byteToken_spec by done. cbn [app mapM].
  rewrite UNICODE_TO_BYTE_lookup by done. cbn [mbind option_bind].
  rewrite IH. done.
Qed.

(** ** Traces *)

Lemma Trace_tokens_Forall (P : list Z → Prop) (maxMerges : option Z)
    (chunks : list (list (list Z))) (idx : nat) (rest : list BPEStep) :
  (∀ a b, P a → P b → P (a ++ b)) →
  Trace maxMerges chunks idx rest →
  Forall (Forall P) chunks →
  ∀ s, s ∈ rest → Forall P (tokens s).
Proof.
  intros Happ. induction 1 as [|chunks idx a b f rest Hab _ _ _ _ _ _ _ IH].
  - intros _ s Hs. by apply elem_of_nil in Hs.
  - intros HP.
    assert (HP' : Forall (Forall P) (map (mergeSpec a b) chunks)).
    { apply allPairs_elem in Hab as (tks & Htks & _ & Ha & Hb).
      rewrite Forall_forall in HP. pose proof (HP _ Htks) as Hc.
      rewrite Forall_forall in Hc. apply Forall_forall.
      intros c' (c & -> & Hc')%list_elem_of_fmap. apply mergeSpec_Forall; auto. }
    intros s [->|Hs]%elem_of_cons; [|by apply IH].
    cbn [tokens]. by apply Forall_concat.
Qed.

Lemma Trace_concat (maxMerges : option Z) (chunks : list (list (list Z)))
    (idx : nat) (rest : list BPEStep) :
  Trace maxMerges chunks idx rest →
  ∀ s, s ∈ rest → concat (tokens s) = concat (concat chunks).
Proof.
  induction 1 as [|chunks idx a b f rest _ _ _ _ _ _ _ _ IH].
  - intros s Hs. by apply elem_of_nil in Hs.
  - intros s [->|Hs]%elem_of_cons.
    + cbn [tokens]. apply merge_chunks_concat.
    + rewrite IH by done. apply merge_chunks_concat.
Qed.

Lemma Trace_fields (maxMerges : option Z) (chunks : list (list (list Z)))
    (idx : nat) (rest : list BPEStep) :
  Trace maxMerges chunks idx rest →
  ∀ j s, rest !! j = Some s →
    stepIndex s = idx + j
    ∧ overBound maxMerges (idx + j) = false
    ∧ ∃ a b f, mergedPair s = Some [a; b] ∧ frequency s = Some f
               ∧ newToken s = Some (a ++ b) ∧ 2 ≤ f.
Proof.
  induction 1 as [|chunks idx a b f rest _ _ _ _ _ Hf Hb _ IH]; intros j s Hj.
  - done.
  - destruct j as [|j]; simpl in Hj.
    + injection Hj as <-. rewrite Nat.add_0_r. cbn. split; [done|].
      split; [done|]. by exists a, b, f.
    + replace (idx + S j) with (S idx + j) by lia. by apply IH.
Qed.

(** What links two consecutive steps: the chunk list behind the first one,
    the pair selected on it and the merge pass applied to every chunk. *)
Lemma Trace_consecutive (maxMerges : option Z) (chunks : list (list (list Z)))
    (idx : nat) (rest : list BPEStep) :
  Trace maxMerges chunks idx rest →
  ∀ prev, tokens prev = concat chunks →
  ∀ i s t, (prev :: rest) !! i = Some s → (prev :: rest) !! S i = Some t →
    ∃ cs a b f,
      tokens s = concat cs
      ∧ (a, b) ∈ allPairs cs
      ∧ selectBest (countPairsAcrossChunks cs) = (pairKey a b, f)
      ∧ mergedPair t = Some [a; b] ∧ frequency t = Some f
      ∧ f = occurrences (a, b) (allPairs cs)
      ∧ tokens t = concat (map (mergeSpec a b) cs)
      ∧ (∀ p, occurrences p (allPairs cs) ≤ f)
      ∧ (∀ p, occurrences p (allPairs cs) = f →
           firstIndex (a, b) (allPairs cs) ≤ firstIndex p (allPairs cs)).
Proof.
  induction 1 as [|chunks idx a b f rest Hab Hsel Hocc Hmax Hfirst _ _ _ IH];
    intros prev Hprev i s t Hs Ht.
  - destruct i; done.
  - destruct i as [|i].
    + simpl in Hs, Ht. injection Hs as <-. injection Ht as <-.
      exists chunks, a, b, f. done.
    + exact (IH (mkStep idx (Some [a; b]) (Some f) (Some (a ++ b))
                   (concat (map (mergeSpec a b) chunks))) eq_refl i s t Hs Ht).
Qed.

Lemma occurrences_NoDup {A} `{EqDecision A} (x : A) (l : list A) :
  NoDup l → occurrences x l ≤ 1.
Proof.
  unfold occurrences. induction 1 as [|y l Hnin _ IH]; [simpl; lia|].
  rewrite filter_cons. destruct (decide (y = x)) as [->|_]; [|done].
  cbn [length]. destruct (filter _ l) as [|z l'] eqn:E; [done|].
  exfalso. apply Hnin.
  assert (Hz : z ∈ filter (λ y, y = x) l) by (rewrite E; left).
  apply list_elem_of_filter in Hz as [-> Hz]. done.
Qed.

Lemma Trace_NoDup (maxMerges : option Z) (chunks : list (list (list Z)))
    (idx : nat) (rest : list BPEStep) :
  NoDup (allPairs chunks) → Trace maxMerges chunks idx rest → rest = [].
Proof.
  intros Hnd. destruct 1 as [|chunks idx a b f rest _ _ Hocc _ _ Hf _ _]; [done|].
  pose proof (occurrences_NoDup (a, b) _ Hnd). lia.
Qed.

(** The chunk lists the loop goes through: [states] holds, for every
    recorded step after [prev], the chunk list the loop holds once that
    step is recorded. *)
Lemma Trace_states (maxMerges : option Z) (chunks : list (list (list Z)))
    (idx : nat) (rest : list BPEStep) :
  Trace maxMerges chunks idx rest →
  Forall (Forall NulFree) chunks →
  ∀ prev, tokens prev = concat chunks →
  ∃ states : list (list (list (list Z))),
    length states = length rest
    ∧ (∀ i s cs, (prev :: rest) !! i = Some s → (chunks :: states) !! i = Some cs →
         tokens s = concat cs ∧ Forall (Forall NulFree) cs
         ∧ map (@concat Z) cs = map (@concat Z) chunks)
    ∧ (∀ i s t cs,
         (prev :: rest) !! i = Some s → (prev :: rest) !! S i = Some t →
         (chunks :: states) !! i = Some cs →
         ∃ a b f,
           selectBest (countPairsAcrossChunks cs) = (pairKey a b, f)
           ∧ split PAIR_SEP (pairKey a b) = [a; b]
           ∧ mergedPair t = Some [a; b] ∧ frequency t = Some f
           ∧ (a, b) ∈ allPairs cs
           ∧ f = occurrences (a, b) (allPairs cs)
           ∧ (∀ p, occurrences p (allPairs cs) ≤ f)
           ∧ (∀ p, occurrences p (allPairs cs) = f →
                firstIndex (a, b) (allPairs cs) ≤ firstIndex p (allPairs cs))
           ∧ (chunks :: states) !! S i = Some (map (mergeSpec a b) cs)
           ∧ tokens t = concat (map (mergeSpec a b) cs))
    ∧ (∀ cs, last (chunks :: states) = Some cs →
         allPairs cs = []
         ∨ (selectBest (countPairsAcrossChunks cs)).2 < 2
         ∨ overBound maxMerges (idx + length rest) = true).
Proof.
  induction 1 as [chunks idx Hstop
                 |chunks idx a b f rest Hab Hsel Hf Hmax Hfirst Hge Hb _ IH];
    intros Hnf prev Hprev.
  - exists []. split; [done|]. split; [|split].
    + intros [|i] s cs Hs Hcs; [|done]. simpl in Hs, Hcs.
      injection Hs as <-. injection Hcs as <-. done.
    + intros [|i] s t cs Hs Ht; done.
    + intros cs [= <-]. by rewrite Nat.add_0_r.
  - set (chunks' := map (mergeSpec a b) chunks) in *.
    set (step := mkStep idx (Some [a; b]) (Some f) (Some (a ++ b))
                   (concat chunks')).
    destruct (allPairs_NulFree _ _ _ Hnf Hab) as [Ha Hb'].
    assert (Hnf' : Forall (Forall NulFree) chunks').
    { subst chunks'. rewrite Forall_forall in Hnf. apply Forall_forall.
      intros c' (c & -> & Hc)%list_elem_of_fmap. apply mergeSpec_Forall.
      - unfold NulFree in *. rewrite elem_of_app. tauto.
      - by apply Hnf. }
    assert (Hcat : map (@concat Z) chunks' = map (@concat Z) chunks).
    { subst chunks'. rewrite map_map. apply map_ext. intros c.
      apply mergeSpec_concat. }
    destruct (IH Hnf' step eq_refl) as (states & Hlen & Htok & Hsucc & Hlast).
    exists (chunks' :: states). split; [simpl; by rewrite Hlen|].
    split; [|split].
    + intros [|i] s cs Hs Hcs.
      * simpl in Hs, Hcs. injection Hs as <-. injection Hcs as <-. done.
      * simpl in Hs, Hcs. destruct (Htok i s cs Hs Hcs) as (H1 & H2 & H3).
        split; [done|]. split; [done|]. by rewrite H3.
    + intros [|i] s t cs Hs Ht Hcs.
      * simpl in Hs, Ht, Hcs. injection Hs as <-. injection Ht as <-.
        injection Hcs as <-. exists a, b, f.
        split; [done|]. split; [by apply split_pairKey|]. done.
      * simpl in Hs, Ht, Hcs. exact (Hsucc i s t cs Hs Ht Hcs).
    + intros cs Hcs. rewrite last_cons_cons in Hcs.
      cbn [length]. replace (idx + S (length rest)) with (S idx + length rest)
        by lia.
      by apply Hlast.
Qed.

(** ** runBPE *)

Section Run.
Variables isLetter isNumber : Z → bool.

Lemma String_match_spec (text : list Z) :
  text ≠ [] →
  ∃ chunks : list (list Z),
    String_match isLetter isNumber text = Some (Some (map codeUnits chunks))
    ∧ concat chunks = codePoints text
    ∧ Forall (fun m => m ≠ []) chunks ∧ chunks ≠ [].
Proof.
  intros Hne. unfold String_match.
  destruct (matchLoop_spec isLetter isNumber (S (length (codePoints text)))
              (codePoints text) ltac:(lia)) as (chunks & -> & Hcat & Hall).
  exists chunks. destruct chunks as [|c chunks].
  - exfalso. apply Hne, codePoints_nil_inv. by rewrite <- Hcat.
  - done.
Qed.

Lemma initialChunks_Sym (text : list Z) :
  Forall (Forall Sym) (initialChunks isLetter isNumber text).
Proof.
  unfold initialChunks.
  destruct (String_match isLetter isNumber text) as [[ms|]|]; [|done..].
  apply Forall_forall. intros c (m & -> & _)%list_elem_of_fmap.
  unfold encodeChunk. apply Forall_forall.
  intros t (b & -> & _)%list_elem_of_fmap. apply byteToken_Sym.
Qed.

Lemma runBPE_nil (maxMerges : option Z) :
  runBPE isLetter isNumber [] maxMerges = Some (mkResult []).
Proof. reflexivity. Qed.

Lemma runBPE_spec (text : list Z) (maxMerges : option Z) :
  text ≠ [] →
  ∃ rest,
    runBPE isLetter isNumber text maxMerges
    = Some (mkResult (mkStep 0 None None None
                        (concat (initialChunks isLetter isNumber text)) :: rest))
    ∧ Trace maxMerges (initialChunks isLetter isNumber text) 1 rest.
Proof.
  intros Hne. pose proof (initialChunks_Sym text) as Hsym.
  unfold runBPE, initialChunks in *.
  destruct (String_match_spec text Hne) as (chunks & Hm & _ & _ & Hchunks).
  rewrite Hm in *. clear Hm.
  destruct text as [|u text]; [done|]. cbn [length Nat.eqb mbind option_bind].
  destruct chunks as [|c chunks]; [done|].
  cbn [map length Nat.eqb] in *.
  set (chunks0 := encodeChunk (codeUnits c) :: map encodeChunk (map codeUnits chunks)) in *.
  destruct (bpeLoop_Trace (S (length (concat chunks0))) maxMerges chunks0 1
              [mkStep 0 None None None (concat chunks0)]
              (Sym_chunks_NulFree _ Hsym) ltac:(lia)) as (rest & -> & Htr).
  exists rest. done.
Qed.

(** [runBPE] returns a result on every input. *)
Lemma runBPE_total (text : list Z) (maxMerges : option Z) :
  ∃ r, runBPE isLetter isNumber text maxMerges = Some r
       ∧ (text = [] → steps r = [])
       ∧ (text ≠ [] → ∃ rest,
            steps r = mkStep 0 None None None
                        (concat (initialChunks isLetter isNumber text)) :: rest
            ∧ Trace maxMerges (initialChunks isLetter isNumber text) 1 rest).
Proof.
  destruct (decide (text = [])) as [->|Hne].
  - eexists. split; [apply runBPE_nil|]. done.
  - destruct (runBPE_spec text maxMerges Hne) as (rest & -> & Htr).
    eexists. split; [done|]. split; [done|]. intros _. by exists rest.
Qed.

End Run.

(** ** The trace of [runBPE] *)

Lemma codeUnits_nonempty (m : list Z) : m ≠ [] → codeUnits m ≠ [].
Proof.
  destruct m as [|c m]; [done|]. intros _. unfold codeUnits, codeUnit.
  cbn [flat_map]. by destruct (c <? 65536)%Z.
Qed.

Section Claims.
Variables isLetter isNumber : Z → bool.

Lemma initialChunks_concat (text : list Z) :
  js_string text → text ≠ [] →
  concat (initialChunks isLetter isNumber text)
  = map byteToken (TextEncoder_encode text).
Proof.
  intros Hs Hne. unfold initialChunks.
  destruct (String_match_spec isLetter isNumber text Hne)
    as (chunks & -> & Hcat & _ & _).
  destruct (encode_chunks text chunks Hs Hcat) as [_ <-].
  rewrite concat_map, !map_map. reflexivity.
Qed.

(** C2: for a string of 16-bit code units, every step of the trace decodes,
    through the inverse of the byte table applied to the concatenation of
    its tokens, to the UTF-8 bytes of the input; the chunks of the
    pre-tokeniser are non-empty and concatenate to the input, and the merge
    pass keeps the concatenation of a chunk's tokens. *)
Theorem C2_concatenation_invariant (text : list Z) (maxMerges : option Z) :
  js_string text →
  (text ≠ [] →
     ∃ matches, String_match isLetter isNumber text = Some (Some matches)
                ∧ matches ≠ [] ∧ Forall (fun m => m ≠ []) matches
                ∧ concat matches = text)
  ∧ (∀ tks pair, ∃ r, mergePairInChunk tks pair = Some r
                       ∧ concat r = concat tks)
  ∧ (∀ t b, UNICODE_TO_BYTE !! t = Some b ↔ BYTE_TO_UNICODE !! b = Some t)
  ∧ ∃ r, runBPE isLetter isNumber text maxMerges = Some r
         ∧ ∀ s, s ∈ steps r →
             decodeSymbols (concat (tokens s)) = Some (TextEncoder_encode text).
Proof.
  intros Hs. split; [|split; [|split]].
  - intros Hne.
    destruct (String_match_spec isLetter isNumber text Hne)
      as (chunks & Hm & Hcat & Hall & Hchunks).
    exists (map codeUnits chunks). split; [done|]. split; [by destruct chunks|].
    split; [|by apply encode_chunks].
    apply Forall_forall. intros m (c & -> & Hc)%list_elem_of_fmap.
    rewrite Forall_forall in Hall. by apply codeUnits_nonempty, Hall.
  - intros tks pair. eexists. split; [apply mergePairInChunk_spec|].
    apply mergeSpec_concat.
  - apply UNICODE_TO_BYTE_inverse.
  - destruct (runBPE_total isLetter isNumber text maxMerges)
      as (r & Hr & Hnil & Hcons).
    exists r. split; [done|]. intros s Hin.
    destruct (decide (text = [])) as [E|Hne].
    { rewrite (Hnil E) in Hin. by apply elem_of_nil in Hin. }
    destruct (Hcons Hne) as (rest & Hsteps & Htr). rewrite Hsteps in Hin.
    assert (Hcat : concat (tokens s)
                   = concat (concat (initialChunks isLetter isNumber text))).
    { apply elem_of_cons in Hin as [->|Hin]; [done|].
      by eapply Trace_concat. }
    rewrite Hcat, initialChunks_concat by done.
    apply decodeSymbols_byteTokens. by apply TextEncoder_encode_bytes.
Qed.

(** C3: on every chunk list whose tokens do not contain the separator, the
    selection loop run on the count table returns the key of a pair
    [(a, b)] of the chunks, with frequency its number of occurrences summed
    over all chunks; no pair occurs more often, and among the pairs with that
    number of occurrences it is the one met first in the chunk-by-chunk,
    left-to-right scan.  At every iteration of [runBPE] that is the pair
    merged: [states] lists the chunk list the loop holds at each recorded
    step, starting from the initial chunks; the step that follows records
    the pair and frequency so selected on the chunk list of the step before
    and moves to the merge of that pair in every chunk; and the loop stops
    only when the last chunk list has no pair, its best frequency is below
    2, or the bound is exceeded. *)
Theorem C3_pair_selection (text : list Z) (maxMerges : option Z) :
  (∀ chunks : list (list (list Z)),
     Forall (Forall NulFree) chunks → allPairs chunks ≠ [] →
     ∃ (a b : list Z) (f : nat),
       selectBest (countPairsAcrossChunks chunks) = (pairKey a b, f)
       ∧ split PAIR_SEP (pairKey a b) = [a; b]
       ∧ (a, b) ∈ allPairs chunks
       ∧ f = occurrences (a, b) (allPairs chunks)
       ∧ f = sum_list (map (fun tks => occurrences (a, b) (adjacentPairs tks))
                         chunks)
       ∧ (∀ p, occurrences p (allPairs chunks) ≤ f)
       ∧ (∀ p, occurrences p (allPairs chunks) = f →
            firstIndex (a, b) (allPairs chunks)
            ≤ firstIndex p (allPairs chunks)))
  ∧ ∃ (r : BPEResult) (states : list (list (list (list Z)))),
      runBPE isLetter isNumber text maxMerges = Some r
      ∧ length states = length (steps r)
      ∧ (∀ cs, states !! 0 = Some cs →
           cs = initialChunks isLetter isNumber text)
      ∧ (∀ i s cs, steps r !! i = Some s → states !! i = Some cs →
           tokens s = concat cs ∧ Forall (Forall NulFree) cs
           ∧ map (@concat Z) cs
             = map (@concat Z) (initialChunks isLetter isNumber text))
      ∧ (∀ i s t cs,
           steps r !! i = Some s → steps r !! S i = Some t →
           states !! i = Some cs →
           ∃ a b f,
             selectBest (countPairsAcrossChunks cs) = (pairKey a b, f)
             ∧ split PAIR_SEP (pairKey a b) = [a; b]
             ∧ mergedPair t = Some [a; b] ∧ frequency t = Some f
             ∧ (a, b) ∈ allPairs cs
             ∧ f = occurrences (a, b) (allPairs cs)
             ∧ (∀ p, occurrences p (allPairs cs) ≤ f)
             ∧ (∀ p, occurrences p (allPairs cs) = f →
                  firstIndex (a, b) (allPairs cs)
                  ≤ firstIndex p (allPairs cs))
             ∧ states !! S i = Some (map (mergeSpec a b) cs)
             ∧ tokens t = concat (map (mergeSpec a b) cs))
      ∧ (∀ cs, last states = Some cs →
           allPairs cs = []
           ∨ (selectBest (countPairsAcrossChunks cs)).2 < 2
           ∨ overBound maxMerges (length (steps r)) = true).
Proof.
  split; [apply selectBest_pairs|].
  destruct (runBPE_total isLetter isNumber text maxMerges) as (r & Hr & Hnil & Hcons).
  destruct (decide (text = [])) as [E|Hne].
  { exists r, []. rewrite (Hnil E). split; [done|]. split; [done|].
    split; [done|]. split; [by intros [|i] s cs Hs|].
    split; [by intros [|i] s t cs Hs|]. done. }
  destruct (Hcons Hne) as (rest & Hsteps & Htr).
  pose proof (Sym_chunks_NulFree _ (initialChunks_Sym isLetter isNumber text))
    as Hnf.
  destruct (Trace_states _ _ _ _ Htr Hnf
              (mkStep 0 None None None
                 (concat (initialChunks isLetter isNumber text))) eq_refl)
    as (states & Hlen & Htok & Hsucc & Hlast).
  exists r, (initialChunks isLetter isNumber text :: states). rewrite Hsteps.
  split; [done|]. split; [simpl; by rewrite Hlen|].
  split; [by intros cs [= <-]|]. split; [exact Htok|]. split; [exact Hsucc|].
  exact Hlast.
Qed.

(** C4: with a positive bound [k] the trace has at most [k + 1] steps and
    no recorded step index exceeds [k]. *)
Theorem C4_bound_respected (text : list Z) (k : Z) :
  (0 < k)%Z →
  ∃ r, runBPE isLetter isNumber text (Some k) = Some r
       ∧ (Z.of_nat (length (steps r)) <= k + 1)%Z
       ∧ ∀ s, s ∈ steps r → (Z.of_nat (stepIndex s) <= k)%Z.
Proof.
  intros Hk.
  destruct (runBPE_total isLetter isNumber text (Some k)) as (r & Hr & Hnil & Hcons).
  exists r. split; [done|].
  destruct (decide (text = [])) as [E|Hne].
  { rewrite (Hnil E). split; [simpl; lia|]. by intros s ?%elem_of_nil. }
  destruct (Hcons Hne) as (rest & -> & Htr).
  assert (Hidx : ∀ j s, rest !! j = Some s →
                   stepIndex s = 1 + j ∧ (Z.of_nat (1 + j) <= k)%Z).
  { intros j s Hj. destruct (Trace_fields _ _ _ _ Htr j s Hj) as (Hi & Hb & _).
    split; [done|]. unfold overBound in Hb. apply Z.ltb_ge in Hb. lia. }
  split.
  - cbn [length]. destruct (decide (rest = [])) as [->|Hrest]; [simpl; lia|].
    assert (Hlast : is_Some (rest !! (length rest - 1))).
    { apply lookup_lt_is_Some. destruct rest; [done|]. simpl. lia. }
    destruct Hlast as [s Hs]. destruct (Hidx _ _ Hs) as [_ Hle].
    destruct rest; [done|]. simpl in *. lia.
  - intros s [->|Hin]%elem_of_cons; [simpl; lia|].
    apply list_elem_of_lookup in Hin as [j Hj].
    destruct (Hidx _ _ Hj) as [-> Hle]. done.
Qed.

(** C5: every step after step 0 records a frequency of at least 2; when no
    adjacent pair of the initial chunks occurs twice, the trace holds step 0
    only. *)
Theorem C5_frequency_floor (text : list Z) (maxMerges : option Z) :
  ∃ r, runBPE isLetter isNumber text maxMerges = Some r
       ∧ (∀ s, s ∈ steps r → 0 < stepIndex s →
            ∃ f, frequency s = Some f ∧ 2 ≤ f)
       ∧ (NoDup (allPairs (initialChunks isLetter isNumber text)) →
            (∀ s, s ∈ steps r → stepIndex s = 0)
            ∧ (text ≠ [] → ∃ s0, steps r = [s0] ∧ stepIndex s0 = 0)).
Proof.
  destruct (runBPE_total isLetter isNumber text maxMerges) as (r & Hr & Hnil & Hcons).
  exists r. split; [done|].
  destruct (decide (text = [])) as [E|Hne].
  { rewrite (Hnil E). split; [by intros s ?%elem_of_nil|].
    intros _. split; [by intros s ?%elem_of_nil|done]. }
  destruct (Hcons Hne) as (rest & -> & Htr). split.
  - intros s [->|Hin]%elem_of_cons; [simpl; lia|]. intros _.
    apply list_elem_of_lookup in Hin as [j Hj].
    destruct (Trace_fields _ _ _ _ Htr j s Hj)
      as (_ & _ & a & b & f & _ & Hf & _ & Hge).
    by exists f.
  - intros Hnd. rewrite (Trace_NoDup _ _ _ _ Hnd Htr). split.
    + by intros s ->%list_elem_of_singleton.
    + intros _. by eexists.
Qed.

(** C7: between two consecutive steps the token count strictly decreases,
    by the number of replacements the merge pass applies over the chunks
    behind the earlier step; that number is at least 1 and at most the
    recorded frequency, and it is smaller than the frequency for the
    self-overlapping pair of [a a a]. *)
Theorem C7_token_count_decreases (text : list Z) (maxMerges : option Z) :
  (∃ r, runBPE isLetter isNumber text maxMerges = Some r
        ∧ ∀ i s t, steps r !! i = Some s → steps r !! S i = Some t →
            length (tokens t) < length (tokens s)
            ∧ ∃ chunks a b f,
                tokens s = concat chunks
                ∧ mergedPair t = Some [a; b] ∧ frequency t = Some f
                ∧ mapM (fun c => mergePairInChunk c [a; b]) chunks
                  = Some (map (mergeSpec a b) chunks)
                ∧ tokens t = concat (map (mergeSpec a b) chunks)
                ∧ length (tokens s)
                  = length (tokens t) + sum_list (map (mergeCount a b) chunks)
                ∧ 1 ≤ sum_list (map (mergeCount a b) chunks) ≤ f)
  ∧ (let chunks := [[[97]; [97]; [97]]]%Z in
     selectBest (countPairsAcrossChunks chunks) = (pairKey [97%Z] [97%Z], 2)
     ∧ sum_list (map (mergeCount [97%Z] [97%Z]) chunks) = 1).
Proof.
  split; [|done].
  destruct (runBPE_total isLetter isNumber text maxMerges) as (r & Hr & Hnil & Hcons).
  exists r. split; [done|]. intros i s t Hs Ht.
  destruct (decide (text = [])) as [E|Hne].
  { by rewrite (Hnil E) in Hs. }
  destruct (Hcons Hne) as (rest & Hsteps & Htr). rewrite Hsteps in Hs, Ht.
  destruct (Trace_consecutive _ _ _ _ Htr
              (mkStep 0 None None None
                 (concat (initialChunks isLetter isNumber text)))
              eq_refl i s t Hs Ht)
    as (cs & a & b & f & Hts & Hab & _ & Hmp & Hfr & Hf & Htt & _ & _).
  pose proof (merge_chunks_length a b cs) as Hlen.
  pose proof (merge_chunks_count_pos a b cs Hab) as Hpos.
  pose proof (merge_chunks_count_le a b cs) as Hle.
  rewrite Hts, Htt. split; [lia|].
  exists cs, a, b, f. split; [done|]. split; [done|]. split; [done|].
  split; [apply (mapM_mergePairInChunk [a; b])|]. split; [done|]. lia.
Qed.

(** C8 (amended): [runBPE] returns a result on every input; the trace is
    empty exactly when the input is the empty string, and for every other
    input, whitespace-only ones included, the pre-tokeniser finds at least
    one match and the trace starts with step 0. *)
Theorem C8_empty_trace (text : list Z) (maxMerges : option Z) :
  (∃ r, runBPE isLetter isNumber text maxMerges = Some r
        ∧ (steps r = [] ↔ text = [])
        ∧ (text ≠ [] → ∃ s0 rest, steps r = s0 :: rest ∧ stepIndex s0 = 0))
  ∧ (text ≠ [] →
       ∃ matches, String_match isLetter isNumber text = Some (Some matches)
                  ∧ matches ≠ [])
  ∧ runBPE isLetter isNumber [] maxMerges = Some (mkResult []).
Proof.
  split; [|split].
  - destruct (runBPE_total isLetter isNumber text maxMerges)
      as (r & Hr & Hnil & Hcons).
    exists r. split; [done|]. split.
    + split; [|done]. intros E. destruct (decide (text = [])) as [|Hne]; [done|].
      destruct (Hcons Hne) as (rest & Hsteps & _). by rewrite Hsteps in E.
    + intros Hne. destruct (Hcons Hne) as (rest & -> & _). by eexists _, _.
  - intros Hne.
    destruct (String_match_spec isLetter isNumber text Hne)
      as (chunks & Hm & _ & _ & Hchunks).
    exists (map codeUnits chunks). split; [done|]. by destruct chunks.
  - apply runBPE_nil.
Qed.

(** C9: no token of any step contains the separator U+0000 (its characters
    are at least U+0021); the separator-joined key is injective on tokens
    without the separator, and splitting the key of two such tokens gives
    back exactly the two tokens. *)
Theorem C9_separator_free (text : list Z) (maxMerges : option Z) :
  (∃ r, runBPE isLetter isNumber text maxMerges = Some r
        ∧ ∀ s t, s ∈ steps r → t ∈ tokens s →
            (PAIR_SEP ∉ t) ∧ Forall (fun c => 33 <= c)%Z t)
  ∧ (∀ a b a' b', PAIR_SEP ∉ a → PAIR_SEP ∉ a' →
       pairKey a b = pairKey a' b' → a = a' ∧ b = b')
  ∧ (∀ a b, PAIR_SEP ∉ a → PAIR_SEP ∉ b →
       split PAIR_SEP (pairKey a b) = [a; b]).
Proof.
  split; [|split; [apply pairKey_inj|apply split_pairKey]].
  destruct (runBPE_total isLetter isNumber text maxMerges) as (r & Hr & Hnil & Hcons).
  exists r. split; [done|]. intros s t Hs Ht.
  destruct (decide (text = [])) as [E|Hne].
  { rewrite (Hnil E) in Hs. by apply elem_of_nil in Hs. }
  destruct (Hcons Hne) as (rest & Hsteps & Htr). rewrite Hsteps in Hs.
  pose proof (initialChunks_Sym isLetter isNumber text) as Hsym.
  assert (Hall : Forall Sym (tokens s)).
  { apply elem_of_cons in Hs as [->|Hs].
    - cbn [tokens]. by apply Forall_concat.
    - eapply (Trace_tokens_Forall Sym); [|exact Htr|exact Hsym|exact Hs].
      intros a b Ha Hb. by apply Forall_app. }
  rewrite Forall_forall in Hall. specialize (Hall _ Ht).
  split; [by apply Sym_NulFree|done].
Qed.

(** C10: the step at position [i] of the trace has [stepIndex = i]; step 0
    has no merged pair, frequency or new token; every later step has all
    three, the pair has exactly two tokens and the new token is their
    concatenation. *)
Theorem C10_step_fields (text : list Z) (maxMerges : option Z) :
  ∃ r, runBPE isLetter isNumber text maxMerges = Some r
       ∧ ∀ i s, steps r !! i = Some s →
           stepIndex s = i
           ∧ (i = 0 → mergedPair s = None ∧ frequency s = None
                      ∧ newToken s = None)
           ∧ (1 ≤ i → ∃ a b f, mergedPair s = Some [a; b]
                               ∧ frequency s = Some f
                               ∧ newToken s = Some (a ++ b)).
Proof.
  destruct (runBPE_total isLetter isNumber text maxMerges) as (r & Hr & Hnil & Hcons).
  exists r. split; [done|]. intros i s Hs.
  destruct (decide (text = [])) as [E|Hne].
  { by rewrite (Hnil E) in Hs. }
  destruct (Hcons Hne) as (rest & Hsteps & Htr). rewrite Hsteps in Hs.
  destruct i as [|j]; simpl in Hs.
  - injection Hs as <-. split; [done|]. split; [done|]. lia.
  - destruct (Trace_fields _ _ _ _ Htr j s Hs)
      as (Hi & _ & a & b & f & Hp & Hf & Hn & _).
    split; [done|]. split; [done|]. intros _. by exists a, b, f.
Qed.

End Claims.

(** ** Concrete runs *)

Lemma C2_concatenation_invariant_witness :
  js_string text_hello
  ∧ ∃ r, runBPE latin1Letter latin1Number text_hello None = Some r
         ∧ ∀ s, s ∈ steps r →
             decodeSymbols (concat (tokens s))
             = Some (TextEncoder_encode text_hello).
Proof.
  assert (H : js_string text_hello) by by apply (bool_decide_unpack _).
  split; [exact H|].
  exact (proj2 (proj2 (proj2
    (C2_concatenation_invariant latin1Letter latin1Number text_hello None H)))).
Defined.

Lemma C3_pair_selection_witness :
  let text := [97; 32; 97; 32; 97]%Z in
  let chunks := [[[97%Z]]; [[288%Z]; [97%Z]]; [[288%Z]; [97%Z]]] in
  Forall (Forall NulFree) chunks ∧ allPairs chunks ≠ []
  ∧ initialChunks latin1Letter latin1Number text = chunks
  ∧ ∃ r s t a b f,
      runBPE latin1Letter latin1Number text None = Some r
      ∧ steps r !! 0 = Some s ∧ steps r !! 1 = Some t
      ∧ tokens s = concat chunks
      ∧ selectBest (countPairsAcrossChunks chunks) = (pairKey a b, f)
      ∧ mergedPair t = Some [a; b] ∧ frequency t = Some f
      ∧ [a; b] = [[288%Z]; [97%Z]] ∧ f = 2
      ∧ tokens t = concat (map (mergeSpec a b) chunks).
Proof.
  intros text chunks.
  assert (H1 : Forall (Forall NulFree) chunks) by by apply (bool_decide_unpack _).
  assert (H2 : allPairs chunks ≠ []) by done.
  assert (H3 : initialChunks latin1Letter latin1Number text = chunks)
    by (vm_compute; reflexivity).
  split; [exact H1|]. split; [exact H2|]. split; [exact H3|].
  destruct (C3_pair_selection latin1Letter latin1Number text None)
    as [Hsel (r & states & Hr & Hlen & H0 & Htok & Hsucc & _)].
  destruct (Hsel chunks H1 H2) as (a0 & b0 & f0 & Hsel0 & _).
  assert (Hrun : ∃ s t rest,
            runBPE latin1Letter latin1Number text None
            = Some (mkResult (s :: t :: rest))
            ∧ mergedPair t = Some [[288%Z]; [97%Z]] ∧ frequency t = Some 2)
    by (vm_compute; eauto 10).
  destruct Hrun as (s & t & rest & Hrun & Hmp & Hfr). rewrite Hrun in Hr.
  injection Hr as <-. cbn [steps] in *.
  destruct states as [|cs states]; [done|].
  pose proof (H0 cs eq_refl) as ->. rewrite H3 in *.
  destruct (Htok 0 s chunks eq_refl eq_refl) as (Hs & _ & _).
  destruct (Hsucc 0 s t chunks eq_refl eq_refl eq_refl)
    as (a & b & f & Hsel1 & _ & Hmp1 & Hfr1 & _ & _ & _ & _ & _ & Htt).
  exists (mkResult (s :: t :: rest)), s, t, a, b, f.
  split; [exact Hrun|]. split; [done|]. split; [done|]. split; [done|].
  split; [done|]. split; [done|]. split; [done|].
  split; [congruence|]. split; [congruence|]. done.
Defined.

Lemma C4_bound_respected_witness :
  (0 < 1)%Z
  ∧ ∃ r, runBPE latin1Letter latin1Number text_hello (Some 1%Z) = Some r
         ∧ (Z.of_nat (length (steps r)) <= 1 + 1)%Z
         ∧ ∀ s, s ∈ steps r → (Z.of_nat (stepIndex s) <= 1)%Z.
Proof.
  split; [lia|].
  apply (C4_bound_respected latin1Letter latin1Number text_hello 1). lia.
Defined.

Lemma C5_frequency_floor_witness :
  NoDup (allPairs (initialChunks latin1Letter latin1Number text_abc))
  ∧ ∃ r, runBPE latin1Letter latin1Number text_abc None = Some r
         ∧ ∃ s0, steps r = [s0] ∧ stepIndex s0 = 0.
Proof.
  assert (H : NoDup (allPairs (initialChunks latin1Letter latin1Number text_abc)))
    by by apply (bool_decide_unpack _).
  split; [exact H|].
  destruct (C5_frequency_floor latin1Letter latin1Number text_abc None)
    as (r & Hr & _ & Hnd).
  exists r. split; [exact Hr|]. by apply (proj2 (Hnd H)).
Defined.

Lemma C7_token_count_decreases_witness :
  ∃ r s t, runBPE latin1Letter latin1Number text_hello None = Some r
           ∧ steps r !! 0 = Some s ∧ steps r !! 1 = Some t
           ∧ length (tokens t) < length (tokens s).
Proof.
  destruct (C7_token_count_decreases latin1Letter latin1Number text_hello None)
    as [(r & Hr & Hdec) _].
  assert (Hrun : ∃ s t rest,
            runBPE latin1Letter latin1Number text_hello None
            = Some (mkResult (s :: t :: rest)))
    by (vm_compute; eauto).
  destruct Hrun as (s & t & rest & Hrun). rewrite Hrun in Hr.
  injection Hr as <-. exists (mkResult (s :: t :: rest)), s, t.
  split; [exact Hrun|].
  split; [done|]. split; [done|]. by apply (Hdec 0 s t).
Defined.

Lemma C9_separator_free_witness :
  (PAIR_SEP ∉ [104%Z]) ∧ (PAIR_SEP ∉ [101%Z])
  ∧ split PAIR_SEP (pairKey [104%Z] [101%Z]) = [[104%Z]; [101%Z]].
Proof.
  assert (H1 : PAIR_SEP ∉ [104%Z]) by by apply (bool_decide_unpack _).
  assert (H2 : PAIR_SEP ∉ [101%Z]) by by apply (bool_decide_unpack _).
  split; [exact H1|]. split; [exact H2|].
  exact (proj2 (proj2 (C9_separator_free latin1Letter latin1Number text_hello None))
           _ _ H1 H2).
Defined.

Lemma C8_empty_trace_witness :
  [32%Z] ≠ []
  ∧ ∃ matches, String_match latin1Letter latin1Number [32%Z] = Some (Some matches)
               ∧ matches ≠ [].
Proof.
  assert (H : [32%Z] ≠ []) by done.
  split; [exact H|].
  exact (proj1 (proj2 (C8_empty_trace latin1Letter latin1Number [32%Z] None)) H).
Defined.

Lemma C10_step_fields_witness :
  ∃ r s, runBPE latin1Letter latin1Number text_hello None = Some r
         ∧ steps r !! 1 = Some s ∧ stepIndex s = 1.
Proof.
  destruct (C10_step_fields latin1Letter latin1Number text_hello None)
    as (r & Hr & Hf).
  assert (Hrun : ∃ s0 s rest,
            runBPE latin1Letter latin1Number text_hello None
            = Some (mkResult (s0 :: s :: rest)))
    by (vm_compute; eauto).
  destruct Hrun as (s0 & s & rest & Hrun). rewrite Hrun in Hr.
  injection Hr as <-. exists (mkResult (s0 :: s :: rest)), s.
  split; [exact Hrun|]. split; [done|].
  by apply (Hf 1 s).
Defined.

(** The claim of C8 as first stated fails on the one-space string: it is
    whitespace-only and its trace holds step 0. *)
Lemma C8_whitespace_counterexample :
  ¬ (∀ (text : list Z) (maxMerges : option Z),
       ∃ r, runBPE latin1Letter latin1Number text maxMerges = Some r
            ∧ (steps r = []
               ↔ text = []
                 ∨ Forall (fun c => isSpace c = true) (codePoints text)
                 ∨ String_match latin1Letter latin1Number text = Some None)).
Proof.
  intros H. destruct (H [32%Z] None) as (r & Hr & Hiff).
  vm_compute in Hr. injection Hr as <-. destruct Hiff as [_ Hiff].
  discriminate Hiff. right; left. by repeat constructor.
Qed.

(** * Further properties of the byte-level engine *)

(** ** The count table *)

Lemma bump_sum (counts : list (list Z * nat)) (k : list Z) :
  sum_list (bump counts k).*2 = S (sum_list counts.*2).
Proof.
  unfold bump. induction counts as [|[k0 w] counts IH]; [done|].
  cbn [Map_get Map_set]. destruct (decide (k0 = k)) as [->|Hne].
  - cbn. lia.
  - rewrite fmap_cons.
    change (sum_list (?x :: ?l)) with (x + sum_list l).
    rewrite IH. rewrite fmap_cons.
    change (sum_list (?x :: ?l)) with (x + sum_list l). simpl. lia.
Qed.

Lemma tally_sum (ks : list (list Z)) :
  sum_list (foldl bump [] ks).*2 = length ks.
Proof.
  induction ks as [|k ks IH] using rev_ind; [done|].
  rewrite foldl_app. cbn [foldl]. rewrite bump_sum, IH, length_app. simpl. lia.
Qed.

Lemma adjacentPairs_length (tks : list (list Z)) :
  length (adjacentPairs tks) = length tks - 1.
Proof.
  unfold adjacentPairs. rewrite length_zip_with.
  destruct tks as [|x tks]; [done|]. cbn [tail length]. lia.
Qed.

Lemma allPairs_length (chunks : list (list (list Z))) :
  length (allPairs chunks) = sum_list (map (fun c => length c - 1) chunks).
Proof.
  unfold allPairs. induction chunks as [|c chunks IH]; [done|].
  rewrite !map_cons, concat_cons, length_app, IH, adjacentPairs_length.
  done.
Qed.

Lemma countPairs_lookup (chunks : list (list (list Z))) (a b : list Z) (n : nat) :
  Forall (Forall NulFree) chunks → NulFree a →
  Map_get (pairKey a b) (countPairsAcrossChunks chunks) = Some n
  ↔ n = occurrences (a, b) (allPairs chunks) ∧ 0 < n.
Proof.
  intros Hnf Ha. rewrite countPairsAcrossChunks_keys.
  set (keyOf := fun p : list Z * list Z => pairKey p.1 p.2).
  destruct (tally_spec (map keyOf (allPairs chunks))) as (Hnd & Hcnt & _).
  rewrite Map_get_lookup by done. rewrite Hcnt.
  change (pairKey a b) with (keyOf (a, b)).
  change (map keyOf (allPairs chunks)) with (keyOf <$> allPairs chunks).
  rewrite occurrences_fmap_inj; [done|].
  intros [a' b'] Hq Heq.
  destruct (allPairs_NulFree _ _ _ Hnf Hq) as [Ha' _].
  destruct (pairKey_inj _ _ _ _ Ha' Ha Heq) as [E1 E2]. simpl in *.
  congruence.
Qed.

(** X1: the count table has one entry per distinct key, its frequencies add
    up to the number of adjacent positions of all chunks, and on chunks
    whose tokens hold no separator the entry of a pair is its number of
    occurrences (a pair that does not occur has no entry). *)
Theorem X1_count_table (chunks : list (list (list Z))) :
  NoDup (countPairsAcrossChunks chunks).*1
  ∧ sum_list (countPairsAcrossChunks chunks).*2
    = sum_list (map (fun c => length c - 1) chunks)
  ∧ (Forall (Forall NulFree) chunks →
     ∀ a b, NulFree a →
       Map_get (pairKey a b) (countPairsAcrossChunks chunks)
       = (if decide (0 < occurrences (a, b) (allPairs chunks))
          then Some (occurrences (a, b) (allPairs chunks)) else None)).
Proof.
  split; [|split].
  - rewrite countPairsAcrossChunks_keys. apply tally_spec.
  - rewrite countPairsAcrossChunks_keys, tally_sum, length_map.
    apply allPairs_length.
  - intros Hnf a b Ha. destruct (decide _) as [Hpos|Hz].
    + by apply countPairs_lookup.
    + destruct (Map_get _ _) as [n|] eqn:E; [|done].
      apply countPairs_lookup in E as [-> Hn]; done.
Qed.

Lemma X1_count_table_witness :
  let chunks := [[[104]; [105]; [104]]; [[105]; [104]; [105]]]%Z in
  Forall (Forall NulFree) chunks ∧ NulFree [104%Z]
  ∧ Map_get (pairKey [104%Z] [105%Z]) (countPairsAcrossChunks chunks) = Some 2.
Proof.
  intros chunks.
  assert (H1 : Forall (Forall NulFree) chunks) by by apply (bool_decide_unpack _).
  assert (H2 : NulFree [104%Z]) by by apply (bool_decide_unpack _).
  split; [done|]. split; [done|].
  rewrite (proj2 (proj2 (X1_count_table chunks)) H1 _ _ H2). reflexivity.
Defined.

(** ** The merge pass leaves no occurrence behind *)

Lemma mergeSpec_head (a b h : list Z) (tks : list (list Z)) :
  head (mergeSpec a b tks) = Some h → head tks = Some h ∨ h = a ++ b.
Proof.
  destruct tks as [|x rest]; [done|].
  destruct (decide (x = a ∧ head rest = Some b)) as [[-> Hh]|Hne].
  - destruct rest as [|y rest]; [done|]. injection Hh as ->.
    rewrite mergeSpec_hit. intros [= <-]. by right.
  - rewrite mergeSpec_miss by done. intros [= <-]. by left.
Qed.

Lemma adjacentPairs_cons_head (x : list Z) (tks : list (list Z)) (p : list Z * list Z) :
  p ∈ adjacentPairs (x :: tks) →
  (∃ y, head tks = Some y ∧ p = (x, y)) ∨ p ∈ adjacentPairs tks.
Proof.
  destruct tks as [|y tks]; [by intros ?%elem_of_nil|].
  rewrite adjacentPairs_cons. intros [->|H]%elem_of_cons; [left|by right].
  by exists y.
Qed.

Lemma mergeSpec_complete (a b : list Z) (tks : list (list Z)) :
  a ≠ [] → b ≠ [] → (a, b) ∉ adjacentPairs (mergeSpec a b tks).
Proof.
  intros Ha Hb.
  assert (Hab1 : a ++ b ≠ a).
  { intros E. apply Hb. apply (f_equal length) in E. rewrite length_app in E.
    destruct b; [done|]. simpl in E. lia. }
  assert (Hab2 : a ++ b ≠ b).
  { intros E. apply Ha. apply (f_equal length) in E. rewrite length_app in E.
    destruct a; [done|]. simpl in E. lia. }
  induction tks as [|rest IH|x rest Hne IH] using (merge_ind a b).
  - by intros ?%elem_of_nil.
  - rewrite mergeSpec_hit.
    intros [(y & _ & [= E _])|H]%adjacentPairs_cons_head; done.
  - rewrite mergeSpec_miss by done.
    intros [(y & Hy & [= E1 E2])|H]%adjacentPairs_cons_head; [|done].
    subst x y. apply mergeSpec_head in Hy as [Hy|Hy]; [|by symmetry in Hy].
    by apply Hne.
Qed.

Lemma mergeSpec_absent (a b : list Z) (tks : list (list Z)) :
  (a, b) ∉ adjacentPairs tks → mergeSpec a b tks = tks.
Proof.
  induction tks as [|rest IH|x rest Hne IH] using (merge_ind a b).
  - done.
  - intros H. exfalso. apply H. rewrite adjacentPairs_cons. left.
  - intros H. rewrite mergeSpec_miss by done. f_equal. apply IH.
    intros Hin. apply H. destruct rest as [|y rest]; [done|].
    rewrite adjacentPairs_cons. by right.
Qed.

(** X2: after the merge pass for a pair of non-empty tokens [a], [b], the
    result has no position left where [a] is directly followed by [b], and
    running the pass again on the result changes nothing. *)
Theorem X2_merge_complete (tks : list (list Z)) (a b : list Z) :
  a ≠ [] → b ≠ [] →
  ∃ r, mergePairInChunk tks [a; b] = Some r ∧ ((a, b) ∉ adjacentPairs r)
       ∧ mergePairInChunk r [a; b] = Some r.
Proof.
  intros Ha Hb. eexists. split; [apply mergePairInChunk_spec|].
  pose proof (mergeSpec_complete a b tks Ha Hb) as Hc. split; [done|].
  rewrite mergePairInChunk_spec. cbn [at_ nth]. f_equal.
  by apply mergeSpec_absent.
Qed.

Lemma X2_merge_complete_witness :
  [97%Z] ≠ [] ∧ [97%Z] ≠ []
  ∧ ∃ r, mergePairInChunk [[97]; [97]; [97]; [97]; [97]]%Z [[97%Z]; [97%Z]] = Some r
         ∧ (([97%Z], [97%Z]) ∉ adjacentPairs r)
         ∧ mergePairInChunk r [[97%Z]; [97%Z]] = Some r.
Proof.
  assert (H : [97%Z] ≠ []) by done.
  split; [exact H|]. split; [exact H|].
  exact (X2_merge_complete [[97]; [97]; [97]; [97]; [97]]%Z [97%Z] [97%Z] H H).
Defined.

(** ** Further properties of traces *)

Lemma Trace_chunks (maxMerges : option Z) (chunks : list (list (list Z)))
    (idx : nat) (rest : list BPEStep) :
  Trace maxMerges chunks idx rest →
  ∀ s, s ∈ rest →
    ∃ cs, tokens s = concat cs ∧ map (@concat Z) cs = map (@concat Z) chunks.
Proof.
  induction 1 as [|chunks idx a b f rest _ _ _ _ _ _ _ _ IH].
  - intros s Hs. by apply elem_of_nil in Hs.
  - assert (E : map (@concat Z) (map (mergeSpec a b) chunks) = map (@concat Z) chunks).
    { rewrite map_map. apply map_ext. intros c. apply mergeSpec_concat. }
    intros s [->|Hs]%elem_of_cons.
    + by eexists.
    + destruct (IH s Hs) as (cs & Hcs & Hmap). exists cs. by rewrite Hmap.
Qed.

Lemma occurrences_fmap_le {A B} `{EqDecision A} `{EqDecision B}
    (f : A → B) (x : A) (l : list A) :
  occurrences x l ≤ occurrences (f x) (f <$> l).
Proof.
  unfold occurrences. induction l as [|y l IH]; [done|].
  rewrite fmap_cons, !filter_cons. destruct (decide (y = x)) as [->|Hne].
  - rewrite decide_True by done. simpl. lia.
  - destruct (decide (f y = f x)); simpl; lia.
Qed.

(** Whatever the tokens hold, no pair occurs more often than the best
    frequency. *)
Lemma selectBest_bound (chunks : list (list (list Z))) (p : list Z * list Z) :
  occurrences p (allPairs chunks)
  ≤ (selectBest (countPairsAcrossChunks chunks)).2.
Proof.
  destruct (decide (allPairs chunks = [])) as [E|Hne].
  { rewrite E. unfold occurrences. simpl. lia. }
  rewrite countPairsAcrossChunks_keys.
  set (keyOf := fun p : list Z * list Z => pairKey p.1 p.2).
  destruct (selectBest_keys (map keyOf (allPairs chunks)))
    as (k & f & -> & _ & _ & Hmax & _).
  { by destruct (allPairs chunks). }
  etrans; [apply (occurrences_fmap_le keyOf)|]. apply Hmax.
Qed.

Lemma Trace_final (chunks : list (list (list Z))) (idx : nat)
    (rest : list BPEStep) :
  Trace None chunks idx rest →
  ∀ prev, tokens prev = concat chunks →
  ∀ s, last (prev :: rest) = Some s →
    ∃ cs, tokens s = concat cs ∧ map (@concat Z) cs = map (@concat Z) chunks
          ∧ ∀ p, occurrences p (allPairs cs) ≤ 1.
Proof.
  induction 1 as [chunks idx Hstop|chunks idx a b f rest _ _ _ _ _ _ _ _ IH];
    intros prev Hprev s Hs.
  - injection Hs as <-. exists chunks. split; [done|]. split; [done|].
    intros p. destruct Hstop as [E|[Hlt|?]]; [| |done].
    + rewrite E. unfold occurrences. simpl. lia.
    + pose proof (selectBest_bound chunks p). lia.
  - rewrite last_cons_cons in Hs.
    destruct (IH (mkStep idx (Some [a; b]) (Some f) (Some (a ++ b))
                    (concat (map (mergeSpec a b) chunks))) eq_refl s Hs)
      as (cs & Hcs & Hmap & Hocc).
    exists cs. split; [done|]. split; [|done]. rewrite Hmap, map_map.
    apply map_ext. intros c. apply mergeSpec_concat.
Qed.

Lemma allPairs_two (chunks : list (list (list Z))) (p : list Z * list Z) :
  p ∈ allPairs chunks → 2 ≤ length (concat chunks).
Proof.
  destruct p as [a b]. intros (tks & Htks & Hab & _)%allPairs_elem.
  assert (2 ≤ length tks).
  { destruct tks as [|x [|y tks]]; [by apply elem_of_nil in Hab..|]. simpl. lia. }
  apply list_elem_of_In, in_split in Htks as (l1 & l2 & ->).
  rewrite concat_app, concat_cons, !length_app. lia.
Qed.

Lemma Trace_length (maxMerges : option Z) (chunks : list (list (list Z)))
    (idx : nat) (rest : list BPEStep) :
  Trace maxMerges chunks idx rest →
  rest = [] ∨ length rest < length (concat chunks).
Proof.
  induction 1 as [|chunks idx a b f rest Hab _ _ _ _ _ _ _ IH]; [by left|].
  right. pose proof (merge_chunks_length a b chunks).
  pose proof (merge_chunks_count_pos a b chunks Hab).
  pose proof (allPairs_two _ _ Hab).
  destruct IH as [->|IH]; simpl; lia.
Qed.

(** ** Bounded and unbounded runs *)

Lemma bpeLoop_steps (fuel : nat) (maxMerges : option Z) :
  ∀ (chunks : list (list (list Z))) (idx : nat) (steps : list BPEStep),
    bpeLoop fuel maxMerges chunks idx steps
    = (fun rest => steps ++ rest) <$> bpeLoop fuel maxMerges chunks idx [].
Proof.
  induction fuel as [|fuel IH]; intros chunks idx steps; [done|].
  cbn [bpeLoop]. destruct (_ =? 0); [cbn; by rewrite app_nil_r|].
  destruct (selectBest _) as [k f]. destruct (f <? 2); [cbn; by rewrite app_nil_r|].
  destruct (overBound _ _); [cbn; by rewrite app_nil_r|].
  destruct (mapM _ chunks) as [chunks'|]; [|done]. cbn [mbind option_bind].
  rewrite IH. rewrite (IH _ _ ([] ++ _)).
  destruct (bpeLoop fuel maxMerges chunks' (idx + 1) []) as [r|]; [|done].
  cbn. by rewrite <- app_assoc.
Qed.

Lemma bpeLoop_bound (fuel : nat) (k : Z) :
  ∀ (chunks : list (list (list Z))) (idx : nat) (rest : list BPEStep),
    bpeLoop fuel None chunks idx [] = Some rest →
    bpeLoop fuel (Some k) chunks idx []
    = Some (take (Z.to_nat (k + 1 - Z.of_nat idx)) rest).
Proof.
  induction fuel as [|fuel IH]; intros chunks idx rest; [done|].
  cbn [bpeLoop]. destruct (_ =? 0); [intros [= <-]; by rewrite take_nil|].
  destruct (selectBest _) as [key f].
  destruct (f <? 2); [intros [= <-]; by rewrite take_nil|].
  cbn [overBound]. destruct (mapM _ chunks) as [chunks'|]; [|done].
  cbn [mbind option_bind]. rewrite bpeLoop_steps.
  destruct (bpeLoop fuel None chunks' (idx + 1) []) as [r|] eqn:E; [|done].
  cbn. intros [= <-]. destruct (Z.ltb_spec k (Z.of_nat idx)) as [Hlt|Hge].
  - replace (Z.to_nat (k + 1 - Z.of_nat idx)) with 0 by lia. done.
  - rewrite bpeLoop_steps, (IH _ _ _ E). cbn.
    replace (Z.to_nat (k + 1 - Z.of_nat idx))
      with (S (Z.to_nat (k + 1 - Z.of_nat (idx + 1)))) by lia.
    done.
Qed.

Section MoreClaims.
Variables isLetter isNumber : Z → bool.

(** X3: merges never cross a chunk boundary: the tokens of every step are
    the concatenation of as many token lists as there are pre-tokeniser
    chunks, the i-th of which spells the symbols of the i-th initial chunk. *)
Theorem X3_chunk_isolation (text : list Z) (maxMerges : option Z) :
  ∃ r, runBPE isLetter isNumber text maxMerges = Some r
       ∧ ∀ s, s ∈ steps r →
           ∃ cs, tokens s = concat cs
                 ∧ length cs = length (initialChunks isLetter isNumber text)
                 ∧ map (@concat Z) cs
                   = map (@concat Z) (initialChunks isLetter isNumber text).
Proof.
  destruct (runBPE_total isLetter isNumber text maxMerges) as (r & Hr & Hnil & Hcons).
  exists r. split; [done|]. intros s Hs.
  destruct (decide (text = [])) as [E|Hne].
  { rewrite (Hnil E) in Hs. by apply elem_of_nil in Hs. }
  destruct (Hcons Hne) as (rest & Hsteps & Htr). rewrite Hsteps in Hs.
  assert (H : ∃ cs, tokens s = concat cs
                ∧ map (@concat Z) cs = map (@concat Z) (initialChunks isLetter isNumber text)).
  { apply elem_of_cons in Hs as [->|Hs]; [by eexists|].
    by eapply Trace_chunks. }
  destruct H as (cs & Hcs & Hmap). exists cs. split; [done|]. split; [|done].
  apply (f_equal length) in Hmap. by rewrite !length_map in Hmap.
Qed.

(** X4: for a string of 16-bit code units, step 0 has one single-character
    token per byte of the UTF-8 encoding of the text, and the trace has at
    most as many steps as the text has bytes. *)
Theorem X4_step0_bytes (text : list Z) (maxMerges : option Z) :
  js_string text →
  ∃ r, runBPE isLetter isNumber text maxMerges = Some r
       ∧ (∀ s0, steps r !! 0 = Some s0 →
            tokens s0 = map (fun b => [specTable b]) (TextEncoder_encode text)
            ∧ length (tokens s0) = length (TextEncoder_encode text))
       ∧ length (steps r) ≤ length (TextEncoder_encode text).
Proof.
  intros Hjs.
  destruct (runBPE_total isLetter isNumber text maxMerges) as (r & Hr & Hnil & Hcons).
  exists r. split; [done|].
  destruct (decide (text = [])) as [E|Hne].
  { rewrite (Hnil E). split; [done|]. simpl. lia. }
  destruct (Hcons Hne) as (rest & Hsteps & Htr). rewrite Hsteps.
  assert (Htok : concat (initialChunks isLetter isNumber text)
                 = map (fun b => [specTable b]) (TextEncoder_encode text)).
  { rewrite initialChunks_concat by done.
    pose proof (TextEncoder_encode_bytes text Hjs) as Hb.
    induction Hb as [|b bs Hb _ IH]; [done|].
    cbn [map]. by rewrite byteToken_spec, IH. }
  split.
  - intros s0 [= <-]. cbn [tokens]. rewrite Htok. split; [done|].
    by rewrite length_map.
  - assert (Hlen : length (concat (initialChunks isLetter isNumber text))
                   = length (TextEncoder_encode text))
      by by rewrite Htok, length_map.
    assert (Hpos : 0 < length (TextEncoder_encode text)).
    { unfold TextEncoder_encode.
      destruct (codePoints text) as [|c cps] eqn:E.
      - by apply codePoints_nil_inv in E.
      - cbn [flat_map]. rewrite length_app. unfold utf8.
        repeat (destruct (_ <? _)%Z); simpl; lia. }
    destruct (Trace_length _ _ _ _ Htr) as [->|Hlt]; simpl; lia.
Qed.

(** X5: a bound that is not positive stops the loop before the first merge:
    the trace of a non-empty text is step 0 alone. *)
Theorem X5_nonpositive_bound (text : list Z) (k : Z) :
  (k <= 0)%Z → text ≠ [] →
  ∃ r s0, runBPE isLetter isNumber text (Some k) = Some r
          ∧ steps r = [s0] ∧ stepIndex s0 = 0.
Proof.
  intros Hk Hne.
  destruct (runBPE_spec isLetter isNumber text (Some k) Hne) as (rest & Hr & Htr).
  assert (rest = []) as ->.
  { inversion Htr as [|? ? ? ? ? ? _ _ _ _ _ _ Hb _]; [done|].
    unfold overBound in Hb. apply Z.ltb_ge in Hb. lia. }
  by eexists _, _.
Qed.

(** X6: a bound only truncates: with a bound [k >= 0] the trace is the
    first [k + 1] steps of the trace computed without bound. *)
Theorem X6_bound_truncates (text : list Z) (k : Z) :
  (0 <= k)%Z →
  ∃ rk r, runBPE isLetter isNumber text (Some k) = Some rk
          ∧ runBPE isLetter isNumber text None = Some r
          ∧ steps rk = take (Z.to_nat (k + 1)) (steps r).
Proof.
  intros Hk.
  destruct (runBPE_total isLetter isNumber text None) as (r & Hr & _).
  exists (mkResult (take (Z.to_nat (k + 1)) (steps r))), r.
  split; [|done]. revert Hr. unfold runBPE.
  destruct (length text =? 0); [intros [= <-]; cbn [steps]; by rewrite take_nil|].
  destruct (String_match isLetter isNumber text) as [[ms|]|]; cbn [mbind option_bind];
    [|intros [= <-]; cbn [steps]; by rewrite take_nil|done].
  destruct (length ms =? 0); [intros [= <-]; cbn [steps]; by rewrite take_nil|].
  rewrite bpeLoop_steps. rewrite (bpeLoop_steps _ (Some k)).
  destruct (bpeLoop _ None _ 1 []) as [rest|] eqn:E; [|done].
  rewrite (bpeLoop_bound _ k _ _ _ E). cbn. intros [= <-]. cbn [steps].
  replace (Z.to_nat (k + 1)) with (S (Z.to_nat (k + 1 - Z.of_nat 1))) by lia.
  done.
Qed.

(** X7: without bound the loop runs until no pair is left that occurs twice:
    the last step of the trace is the concatenation of chunks, spelling the
    initial chunks, in which every adjacent pair occurs at most once. *)
Theorem X7_unbounded_final (text : list Z) :
  ∃ r, runBPE isLetter isNumber text None = Some r
       ∧ ∀ s, last (steps r) = Some s →
           ∃ cs, tokens s = concat cs
                 ∧ map (@concat Z) cs
                   = map (@concat Z) (initialChunks isLetter isNumber text)
                 ∧ ∀ p, occurrences p (allPairs cs) ≤ 1.
Proof.
  destruct (runBPE_total isLetter isNumber text None) as (r & Hr & Hnil & Hcons).
  exists r. split; [done|]. intros s Hs.
  destruct (decide (text = [])) as [E|Hne].
  { by rewrite (Hnil E) in Hs. }
  destruct (Hcons Hne) as (rest & Hsteps & Htr). rewrite Hsteps in Hs.
  exact (Trace_final _ _ _ Htr
           (mkStep 0 None None None
              (concat (initialChunks isLetter isNumber text)))
           eq_refl s Hs).
Qed.

End MoreClaims.

Lemma X4_step0_bytes_witness :
  js_string text_hello
  ∧ ∃ r, runBPE latin1Letter latin1Number text_hello None = Some r
         ∧ length (steps r) ≤ length (TextEncoder_encode text_hello).
Proof.
  assert (H : js_string text_hello) by by apply (bool_decide_unpack _).
  split; [exact H|].
  destruct (X4_step0_bytes latin1Letter latin1Number text_hello None H)
    as (r & Hr & _ & Hlen).
  by exists r.
Defined.

Lemma X5_nonpositive_bound_witness :
  (0 <= 0)%Z ∧ text_hello ≠ []
  ∧ ∃ r s0, runBPE latin1Letter latin1Number text_hello (Some 0%Z) = Some r
            ∧ steps r = [s0] ∧ stepIndex s0 = 0.
Proof.
  assert (H1 : (0 <= 0)%Z) by lia.
  assert (H2 : text_hello ≠ []) by done.
  split; [exact H1|]. split; [exact H2|].
  exact (X5_nonpositive_bound latin1Letter latin1Number text_hello 0 H1 H2).
Defined.

Lemma X6_bound_truncates_witness :
  (0 <= 1)%Z
  ∧ ∃ rk r, runBPE latin1Letter latin1Number text_hello (Some 1%Z) = Some rk
            ∧ runBPE latin1Letter latin1Number text_hello None = Some r
            ∧ steps rk = take (Z.to_nat (1 + 1)) (steps r).
Proof.
  assert (H : (0 <= 1)%Z) by lia.
  split; [exact H|].
  exact (X6_bound_truncates latin1Letter latin1Number text_hello 1 H).
Defined.

(** ** A word is one chunk *)

Lemma matchStar_all (p : Z → bool) (s : list Z) :
  Forall (fun c => p c = true) s → matchStar p s Some = Some [].
Proof.
  induction 1 as [|c s Hc _ IH]; [done|]. simpl. by rewrite Hc, IH.
Qed.

Lemma matchLit_fail {A} (c0 c : Z) (cs s : list Z) (k : list Z → option A) :
  c ≠ c0 → matchRe (Lit c0 cs) (c :: s) k = None.
Proof.
  intros Hne. assert (E : (c0 =? c)%Z = false) by (apply Z.eqb_neq; congruence).
  destruct cs; cbn [Lit matchRe]; by rewrite E.
Qed.

Lemma matchRe_equation_alt_none {A} (r1 r2 : regex) (s : list Z)
    (k : list Z → option A) :
  matchRe r1 s k = None → matchRe (Alt r1 r2) s k = matchRe r2 s k.
Proof. intros H. cbn [matchRe]. by rewrite H. Qed.

Lemma matchAlt_first {A} (r1 r2 : regex) (s : list Z) (k : list Z → option A)
    (x : A) :
  matchRe r1 s k = Some x → matchRe (Alt r1 r2) s k = Some x.
Proof. intros H. cbn [matchRe]. by rewrite H. Qed.

Section Word.
Variables isLetter isNumber : Z → bool.

Lemma matchOptPlus_all (p : Z → bool) (c : Z) (s : list Z) :
  Forall (fun c => p c = true) s →
  p c = true ∨ c = 32%Z ∧ s ≠ [] →
  matchRe (Seq (Opt (Chr (Z.eqb 32))) (Plus p)) (c :: s) Some = Some [].
Proof.
  intros Hs Hhead.
  assert (Hplus : ∀ c' s', p c' = true → Forall (fun c => p c = true) s' →
                    matchRe (Plus p) (c' :: s') Some = Some []).
  { intros c' s' Hc' Hs'. cbn [matchRe]. rewrite Hc'. by apply matchStar_all. }
  change (matchRe (Seq (Opt (Chr (Z.eqb 32))) (Plus p)) (c :: s) Some)
    with (match (if (32 =? c)%Z then matchRe (Plus p) s Some else None) with
          | Some x => Some x
          | None => matchRe (Plus p) (c :: s) Some
          end).
  destruct (32 =? c)%Z eqn:E32.
  - destruct s as [|c' s'].
    + destruct Hhead as [HL|[_ ?]]; [|done].
      change (matchRe (Plus p) [] Some) with (@None (list Z)).
      by rewrite Hplus.
    + apply Forall_cons in Hs as [Hc' Hs']. by rewrite Hplus.
  - destruct Hhead as [HL|[-> _]]; [|done]. by rewrite Hplus.
Qed.

Lemma matchHere_word (c : Z) (s : list Z) :
  c ≠ 39%Z → Forall (fun c => isLetter c = true) s →
  isLetter c = true ∨ c = 32%Z ∧ s ≠ [] →
  matchHere isLetter isNumber (c :: s) = Some [].
Proof.
  intros Hc Hs Hhead. unfold matchHere, GPT2_PAT. cbv zeta.
  do 7 (rewrite (matchRe_equation_alt_none); [|by apply matchLit_fail]).
  apply matchAlt_first. by apply matchOptPlus_all.
Qed.

Lemma String_match_word (text : list Z) (c : Z) (s : list Z) :
  js_string text → codePoints text = c :: s →
  c ≠ 39%Z → Forall (fun c => isLetter c = true) s →
  isLetter c = true ∨ c = 32%Z ∧ s ≠ [] →
  String_match isLetter isNumber text = Some (Some [text]).
Proof.
  intros Hjs Hcps Hc Hs Hhead. unfold String_match. rewrite Hcps.
  cbn [length matchLoop search]. rewrite matchHere_word by done.
  replace (S (length s) - length (@nil Z)) with (length (c :: s))
    by (simpl; lia).
  rewrite firstn_all. cbn [length Nat.eqb search]. rewrite matchHere_nil.
  cbn [mbind option_bind]. rewrite <- Hcps.
  by rewrite (codeUnit_codePoints text Hjs).
Qed.

(** X8: a text that is one run of letters, optionally preceded by a single
    space and not starting with an apostrophe, is matched as one chunk: the
    engine starts from the single token list of the whole text. *)
Theorem X8_word_single_chunk (text : list Z) (c : Z) (s : list Z) :
  js_string text → codePoints text = c :: s →
  c ≠ 39%Z → Forall (fun c => isLetter c = true) s →
  isLetter c = true ∨ c = 32%Z ∧ s ≠ [] →
  String_match isLetter isNumber text = Some (Some [text])
  ∧ initialChunks isLetter isNumber text = [encodeChunk text].
Proof.
  intros Hjs Hcps Hc Hs Hhead. unfold initialChunks.
  by rewrite (String_match_word text c s).
Qed.

End Word.

Lemma X8_word_single_chunk_witness :
  let text := [32; 104; 105]%Z in
  js_string text ∧ codePoints text = 32%Z :: [104; 105]%Z
  ∧ String_match latin1Letter latin1Number text = Some (Some [text]).
Proof.
  intros text.
  assert (H1 : js_string text) by by apply (bool_decide_unpack _).
  assert (H2 : codePoints text = 32%Z :: [104; 105]%Z) by reflexivity.
  split; [exact H1|]. split; [exact H2|].
  refine (proj1 (X8_word_single_chunk latin1Letter latin1Number text 32
                   [104; 105]%Z H1 H2 _ _ _)).
  - done.
  - by repeat constructor.
  - by right.
Defined.

(** ** Token colours *)

Lemma toInt32_range (x : Z) : (- 2 ^ 31 <= toInt32 x < 2 ^ 31)%Z.
Proof.
  unfold toInt32. pose proof (Z.mod_pos_bound (x + 2 ^ 31) (2 ^ 32) ltac:(lia)).
  lia.
Qed.

Lemma tokenHash_range (token : list Z) :
  (- 2 ^ 31 <= tokenHash token < 2 ^ 31)%Z.
Proof.
  unfold tokenHash. induction (codePoints token) as [|c cps IH] using rev_ind.
  - simpl. lia.
  - rewrite foldl_app. cbn [foldl]. apply toInt32_range.
Qed.

(** X9: every token gets one of the ten colour classes: the index computed
    from the 32-bit hash is in range, whatever the token (the hash
    [-2^31] included), and the empty token gets the first colour. *)
Theorem X9_tokenColor_defined (token : list Z) :
  (∃ color, tokenColor token = Some color ∧ color ∈ TOKEN_COLORS)
  ∧ (- 2 ^ 31 <= tokenHash token < 2 ^ 31)%Z
  ∧ tokenColor [] = head TOKEN_COLORS.
Proof.
  split; [|split; [apply tokenHash_range|reflexivity]].
  unfold tokenColor.
  assert (Hlt : Z.to_nat (Z.abs (tokenHash token) mod Z.of_nat (length TOKEN_COLORS))
                < length TOKEN_COLORS).
  { pose proof (Z.mod_pos_bound (Z.abs (tokenHash token))
                  (Z.of_nat (length TOKEN_COLORS)) ltac:(simpl; lia)).
    lia. }
  destruct (lookup_lt_is_Some_2 _ _ Hlt) as [color Hcolor].
  exists color. split; [done|]. by eapply list_elem_of_lookup_2.
Qed.

(** * The character-level engine *)

(** ** JSON keys *)

Lemma hexValue_hexDigit (d : Z) :
  (0 <= d < 16)%Z → hexValue (hexDigit d) = Some d.
Proof.
  intros Hd. unfold hexDigit, hexValue.
  destruct (Z.ltb_spec d 10).
  - destruct (Z.leb_spec 48 (48 + d)); [|lia].
    destruct (Z.leb_spec (48 + d) 57); [|lia]. simpl. f_equal. lia.
  - destruct (Z.leb_spec 48 (87 + d)); [|lia].
    destruct (Z.leb_spec (87 + d) 57); [lia|].
    destruct (Z.leb_spec 97 (87 + d)); [|lia].
    destruct (Z.leb_spec (87 + d) 102); [|lia]. simpl. f_equal. lia.
Qed.

Lemma parseString_unicodeEscape (c : Z) (rest : list Z) :
  (0 <= c < 65536)%Z →
  parseString (unicodeEscape c ++ rest)
  = '(str, r) ← parseString rest; Some (c :: str, r).
Proof.
  intros Hc. unfold unicodeEscape. cbn [app parseString].
  change (92 =? 34)%Z with false. change (92 =? 92)%Z with true.
  change (117 =? 117)%Z with true. cbv iota.
  assert (H1 : (0 <= c / 4096 mod 16 < 16)%Z) by (apply Z.mod_pos_bound; lia).
  assert (H2 : (0 <= c / 256 mod 16 < 16)%Z) by (apply Z.mod_pos_bound; lia).
  assert (H3 : (0 <= c / 16 mod 16 < 16)%Z) by (apply Z.mod_pos_bound; lia).
  assert (H4 : (0 <= c mod 16 < 16)%Z) by (apply Z.mod_pos_bound; lia).
  rewrite !hexValue_hexDigit by done. cbn [mbind option_bind].
  replace (c / 4096 mod 16 * 4096 + c / 256 mod 16 * 256
           + c / 16 mod 16 * 16 + c mod 16)%Z with c; [done|].
  clear H1 H2 H3 H4. Z.div_mod_to_equations. lia.
Qed.

Lemma parseString_plain (c : Z) (rest : list Z) :
  (32 <= c)%Z → c ≠ 34%Z → c ≠ 92%Z →
  parseString (c :: rest) = '(str, r) ← parseString rest; Some (c :: str, r).
Proof.
  intros H1 H2 H3. cbn [parseString].
  destruct (Z.eqb_spec c 34); [done|]. destruct (Z.eqb_spec c 92); [done|].
  destruct (Z.ltb_spec c 32); [lia|]. done.
Qed.

Lemma parseString_quoteCodePoint (c : Z) (rest : list Z) :
  (0 <= c < 0x110000)%Z →
  parseString (quoteCodePoint c ++ rest)
  = '(str, r) ← parseString rest; Some (codeUnit c ++ str, r).
Proof.
  intros Hc. unfold quoteCodePoint.
  assert (Hunit : (c < 0x10000)%Z → codeUnit c = [c]).
  { intros H. unfold codeUnit. by destruct (Z.ltb_spec c 0x10000); [|lia]. }
  destruct (Z.eqb_spec c 8) as [->|?]; [cbn; by destruct (parseString rest) as [[??]|]|].
  destruct (Z.eqb_spec c 9) as [->|?]; [cbn; by destruct (parseString rest) as [[??]|]|].
  destruct (Z.eqb_spec c 10) as [->|?]; [cbn; by destruct (parseString rest) as [[??]|]|].
  destruct (Z.eqb_spec c 12) as [->|?]; [cbn; by destruct (parseString rest) as [[??]|]|].
  destruct (Z.eqb_spec c 13) as [->|?]; [cbn; by destruct (parseString rest) as [[??]|]|].
  destruct (Z.eqb_spec c 34) as [->|?]; [cbn; by destruct (parseString rest) as [[??]|]|].
  destruct (Z.eqb_spec c 92) as [->|?]; [cbn; by destruct (parseString rest) as [[??]|]|].
  destruct ((c <? 32)%Z || isHighSurrogate c || isLowSurrogate c) eqn:E.
  - assert (Hlt : (c < 65536)%Z).
    { unfold isHighSurrogate, isLowSurrogate in E. lia. }
    rewrite parseString_unicodeEscape by lia. by rewrite Hunit.
  - apply orb_false_iff in E as [E El]. apply orb_false_iff in E as [E Eh].
    apply Z.ltb_ge in E. unfold codeUnit.
    destruct (Z.ltb_spec c 0x10000) as [Hlt|Hge].
    + cbn [app]. by rewrite parseString_plain.
    + assert (0 <= (c - 0x10000) / 0x400 < 0x400)%Z.
      { split; [apply Z.div_pos; lia|apply Z.div_lt_upper_bound; lia]. }
      assert (0 <= (c - 0x10000) mod 0x400 < 0x400)%Z
        by (apply Z.mod_pos_bound; lia).
      cbn [app]. rewrite !parseString_plain by lia.
      by destruct (parseString rest) as [[??]|].
Qed.

Lemma parseString_quoted (cps tail : list Z) :
  Forall (fun c => 0 <= c < 0x110000)%Z cps →
  parseString (flat_map quoteCodePoint cps ++ 34%Z :: tail)
  = Some (codeUnits cps, tail).
Proof.
  induction 1 as [|c cps Hc _ IH]; [done|].
  cbn [flat_map]. rewrite <- app_assoc, parseString_quoteCodePoint by done.
  rewrite IH. done.
Qed.

Lemma JSON_stringify_pair (a b : list Z) :
  JSON_stringify [a; b]
  = 91%Z :: 34%Z :: flat_map quoteCodePoint (codePoints a)
    ++ 34%Z :: 44%Z :: 34%Z :: flat_map quoteCodePoint (codePoints b)
    ++ 34%Z :: [93%Z].
Proof.
  unfold JSON_stringify, QuoteJSONString. cbn [map joinComma app].
  rewrite <- !app_assoc. cbn [app]. rewrite <- !app_assoc. done.
Qed.

(** A key is read back as the pair it was made from, whatever the two
    strings hold. *)
Lemma JSON_parse_stringify (a b : list Z) :
  js_string a → js_string b →
  JSON_parse (JSON_stringify [a; b]) = Some [a; b].
Proof.
  intros Ha Hb. rewrite JSON_stringify_pair.
  set (qa := flat_map quoteCodePoint (codePoints a)).
  set (qb := flat_map quoteCodePoint (codePoints b)).
  cbn [JSON_parse]. change (91 =? 91)%Z with true.
  change (34 =? 93)%Z with false. cbv iota.
  cbn [length parseElements]. change (34 =? 34)%Z with true. cbv iota.
  subst qa. rewrite parseString_quoted by by apply codePoints_range.
  cbn [mbind option_bind]. change (44 =? 93)%Z with false.
  change (44 =? 44)%Z with true. cbv iota.
  rewrite length_app. cbn [length]. rewrite Nat.add_succ_r.
  cbn [parseElements]. change (34 =? 34)%Z with true. cbv iota.
  subst qb. rewrite parseString_quoted by by apply codePoints_range.
  cbn [mbind option_bind]. change (93 =? 93)%Z with true. cbv iota.
  by rewrite !codeUnit_codePoints.
Qed.

(** ** Counting and selection with any injective key *)

Lemma pairScan_keys (f : list Z → list Z → list Z)
    (counts : list (list Z * nat)) (tks : list (list Z)) :
  foldl (fun counts i =>
           let key := f (at_ tks i) (at_ tks (i + 1)) in
           Map_set key (default 0 (Map_get key counts) + 1) counts)
        counts (seq 0 (length tks - 1))
  = foldl bump counts (map (fun p => f p.1 p.2) (adjacentPairs tks)).
Proof.
  assert (Hk : map (fun i => f (at_ tks i) (at_ tks (i + 1)))
                 (seq 0 (length tks - 1))
               = map (fun p => f p.1 p.2) (adjacentPairs tks)).
  { induction tks as [|x [|y rest] IH]; [done..|].
    replace (length (x :: y :: rest) - 1) with (S (length (y :: rest) - 1))
      by (simpl; lia).
    rewrite adjacentPairs_cons, (map_cons _ (x, y)), <- IH. cbn [seq map].
    rewrite <- seq_shift, map_map. f_equal. }
  rewrite <- Hk. generalize (seq 0 (length tks - 1)) as l. intros l.
  revert counts. induction l as [|i l IH]; intros counts; [done|].
  simpl. by rewrite IH.
Qed.

Lemma selectBest_inj (keyOf : list Z * list Z → list Z)
    (ps : list (list Z * list Z)) :
  (∀ p q, p ∈ ps → q ∈ ps → keyOf q = keyOf p → q = p) → ps ≠ [] →
  ∃ p f, selectBest (foldl bump [] (map keyOf ps)) = (keyOf p, f)
    ∧ p ∈ ps ∧ f = occurrences p ps
    ∧ (∀ q, occurrences q ps ≤ f)
    ∧ (∀ q, occurrences q ps = f → firstIndex p ps ≤ firstIndex q ps).
Proof.
  intros Hinj Hne.
  destruct (selectBest_keys (map keyOf ps)) as (k & f & Hsel & Hk & Hf & Hmax & Hfirst).
  { by destruct ps. }
  apply list_elem_of_fmap in Hk as (p & -> & Hp).
  assert (Hocc : ∀ q, q ∈ ps → occurrences (keyOf q) (keyOf <$> ps) = occurrences q ps).
  { intros q Hq. apply occurrences_fmap_inj. intros q' Hq'. by apply Hinj. }
  assert (Hfst : ∀ q, q ∈ ps → firstIndex (keyOf q) (keyOf <$> ps) = firstIndex q ps).
  { intros q Hq. apply firstIndex_fmap_inj. intros q' Hq'. by apply Hinj. }
  change (map keyOf ps) with (keyOf <$> ps) in *.
  rewrite Hocc in Hf by done.
  exists p, f. split; [done|]. split; [done|]. split; [done|]. split.
  - intros q. destruct (decide (q ∈ ps)) as [Hq|Hq].
    + rewrite <- Hocc by done. apply Hmax.
    + destruct (occurrences q ps) eqn:E; [lia|]. exfalso.
      apply Hq, occurrences_pos. lia.
  - intros q Hq.
    assert (Hqin : q ∈ ps).
    { apply occurrences_pos. rewrite Hq, Hf. by apply occurrences_pos. }
    rewrite <- (Hfst p), <- (Hfst q) by done. apply Hfirst.
    by rewrite Hocc.
Qed.

(** ** The loop of the character-level engine *)

Lemma Simple_countPairs_keys (tks : list (list Z)) :
  Simple.countPairs tks
  = foldl bump [] (map (fun p => JSON_stringify [p.1; p.2]) (adjacentPairs tks)).
Proof.
  unfold Simple.countPairs.
  apply (pairScan_keys (fun a b => JSON_stringify [a; b])).
Qed.

Lemma Simple_mergePair_spec (tks pair : list (list Z)) :
  Simple.mergePair tks pair = Some (mergeSpec (at_ pair 0) (at_ pair 1) tks).
Proof. apply mergePairInChunk_spec. Qed.

Lemma js_string_app (a b : list Z) : js_string a → js_string b → js_string (a ++ b).
Proof. unfold js_string. intros. by apply Forall_app. Qed.

Lemma Simple_loop_Trace (fuel : nat) (maxMerges : option Z) :
  ∀ (tks : list (list Z)) (idx : nat) (steps : list BPEStep),
    Forall js_string tks →
    length tks < fuel →
    ∃ rest, Simple.loop fuel maxMerges tks idx steps = Some (steps ++ rest)
            ∧ SimpleTrace maxMerges tks idx rest.
Proof.
  induction fuel as [|fuel IH]; intros tks idx steps Hjs Hfuel; [lia|].
  cbn [Simple.loop]. rewrite Simple_countPairs_keys.
  set (keyOf := fun p : list Z * list Z => JSON_stringify [p.1; p.2]).
  destruct (decide (adjacentPairs tks = [])) as [E|Hne].
  { rewrite E. exists []. rewrite app_nil_r. split; [done|].
    apply SimpleTrace_stop. left. intros p. rewrite E. unfold occurrences.
    simpl. lia. }
  assert (Hpjs : ∀ a b, (a, b) ∈ adjacentPairs tks → js_string a ∧ js_string b).
  { intros a b [Ha Hb]%adjacentPairs_elem. rewrite Forall_forall in Hjs.
    split; by apply Hjs. }
  destruct (selectBest_inj keyOf (adjacentPairs tks))
    as ([a b] & f & Hsel & Hab & Hf & Hmax & Hfirst); [|done|].
  { intros [a b] [a' b'] Hp Hq Heq.
    destruct (Hpjs _ _ Hp) as [Ha Hb]. destruct (Hpjs _ _ Hq) as [Ha' Hb'].
    assert (E : Some [a'; b'] = Some [a; b]).
    { rewrite <- (JSON_parse_stringify a' b'), <- (JSON_parse_stringify a b)
        by done. unfold keyOf in Heq. simpl in Heq. by rewrite Heq. }
    by injection E as -> ->. }
  assert (Hcnt : (length (foldl bump [] (map keyOf (adjacentPairs tks))) =? 0)
                 = false).
  { apply Nat.eqb_neq. intros E.
    destruct (tally_spec (map keyOf (adjacentPairs tks))) as (_ & Hcnt & _).
    assert (Hin : (keyOf (a, b), occurrences (keyOf (a, b))
                     (map keyOf (adjacentPairs tks)))
                  ∈ foldl bump [] (map keyOf (adjacentPairs tks))).
    { apply Hcnt. split; [done|]. apply occurrences_pos.
      apply list_elem_of_fmap. by exists (a, b). }
    destruct (foldl bump [] _); [by apply elem_of_nil in Hin|done]. }
  rewrite Hcnt, Hsel.
  destruct (Nat.ltb_spec f 2) as [Hlt|Hge].
  { exists []. rewrite app_nil_r. split; [done|]. apply SimpleTrace_stop. left.
    intros p. specialize (Hmax p). lia. }
  destruct (overBound maxMerges idx) eqn:Hb.
  { exists []. rewrite app_nil_r. split; [done|]. apply SimpleTrace_stop.
    by right. }
  destruct (Hpjs _ _ Hab) as [Ha Hb'].
  unfold keyOf. cbn [fst snd]. rewrite JSON_parse_stringify by done.
  cbn [mbind option_bind]. rewrite Simple_mergePair_spec.
  cbn [at_ nth mbind option_bind].
  destruct (IH (mergeSpec a b tks) (idx + 1)
              (steps ++ [mkStep idx (Some [a; b]) (Some f) (Some (a ++ b))
                           (mergeSpec a b tks)])) as (rest & Hrun & Htr).
  - apply mergeSpec_Forall; [by apply js_string_app|done].
  - pose proof (mergeSpec_length a b tks).
    pose proof (mergeCount_pos a b tks Hab). lia.
  - eexists (_ :: rest). rewrite Hrun, <- app_assoc. split; [done|].
    replace (idx + 1) with (S idx) in Htr by lia.
    by apply SimpleTrace_merge.
Qed.

(** ** Traces of the character-level engine *)

Lemma SimpleTrace_det (maxMerges : option Z) (tks : list (list Z)) (idx : nat)
    (r1 r2 : list BPEStep) :
  SimpleTrace maxMerges tks idx r1 → SimpleTrace maxMerges tks idx r2 → r1 = r2.
Proof.
  intros H1. revert r2.
  induction H1 as [tks idx Hstop|tks idx a b f rest Hab Hf Hmax Hfirst Hge Hb _ IH];
    intros r2 H2.
  - inversion H2 as [|? ? a b f rest Hab Hf _ _ Hge Hb _]; subst; [done|].
    destruct Hstop as [Hlt|Hover]; [|congruence].
    specialize (Hlt (a, b)). lia.
  - inversion H2 as [? ? Hstop|? ? a' b' f' rest' Hab' Hf' Hmax' Hfirst' _ _ Htr'];
      subst.
    + destruct Hstop as [Hlt|Hover]; [|congruence].
      specialize (Hlt (a, b)). lia.
    + assert (Hff : occurrences (a, b) (adjacentPairs tks)
                    = occurrences (a', b') (adjacentPairs tks)).
      { pose proof (Hmax (a', b')). pose proof (Hmax' (a, b)). lia. }
      assert (Hidx : firstIndex (a, b) (adjacentPairs tks)
                     = firstIndex (a', b') (adjacentPairs tks)).
      { pose proof (Hfirst (a', b') (eq_sym Hff)).
        pose proof (Hfirst' (a, b) Hff). lia. }
      assert (E : Some (a, b) = Some (a', b')).
      { pose proof (firstIndex_lookup (a, b) _ Hab) as E1.
        pose proof (firstIndex_lookup (a', b') _ Hab') as E2.
        rewrite Hidx in E1. congruence. }
      injection E as <- <-. f_equal. by apply IH.
Qed.

Lemma allPairs_single (tks : list (list Z)) : allPairs [tks] = adjacentPairs tks.
Proof. unfold allPairs. simpl. by rewrite app_nil_r. Qed.

(** On a single chunk the byte-level loop is classic BPE. *)
Lemma Trace_single (maxMerges : option Z) (chunks : list (list (list Z)))
    (idx : nat) (rest : list BPEStep) :
  Trace maxMerges chunks idx rest →
  ∀ tks, chunks = [tks] → SimpleTrace maxMerges tks idx rest.
Proof.
  induction 1 as [chunks idx Hstop
                 |chunks idx a b f rest Hab _ Hf Hmax Hfirst Hge Hb _ IH];
    intros tks ->.
  - apply SimpleTrace_stop. rewrite allPairs_single in Hstop.
    destruct Hstop as [E|[Hlt|Hover]]; [left|left|by right].
    + intros p. rewrite E. unfold occurrences. simpl. lia.
    + intros p. pose proof (selectBest_bound [tks] p) as Hp.
      rewrite allPairs_single in Hp. lia.
  - rewrite allPairs_single in *. cbn [map concat]. rewrite app_nil_r.
    apply SimpleTrace_merge; try done. by apply IH.
Qed.

Lemma SimpleTrace_steps (maxMerges : option Z) (tks : list (list Z)) (idx : nat)
    (rest : list BPEStep) :
  SimpleTrace maxMerges tks idx rest →
  ∀ j s, rest !! j = Some s →
    stepIndex s = idx + j ∧ concat (tokens s) = concat tks.
Proof.
  induction 1 as [|tks idx a b f rest _ _ _ _ _ _ _ IH]; intros j s Hj; [done|].
  destruct j as [|j]; simpl in Hj.
  - injection Hj as <-. cbn. split; [lia|]. apply mergeSpec_concat.
  - destruct (IH j s Hj) as [-> ->]. split; [lia|]. apply mergeSpec_concat.
Qed.

Lemma SimpleTrace_consecutive (maxMerges : option Z) (tks : list (list Z))
    (idx : nat) (rest : list BPEStep) :
  SimpleTrace maxMerges tks idx rest →
  ∀ prev, tokens prev = tks →
  ∀ i s t, (prev :: rest) !! i = Some s → (prev :: rest) !! S i = Some t →
    ∃ a b f,
      mergedPair t = Some [a; b] ∧ frequency t = Some f
      ∧ newToken t = Some (a ++ b)
      ∧ (a, b) ∈ adjacentPairs (tokens s)
      ∧ f = occurrences (a, b) (adjacentPairs (tokens s)) ∧ 2 ≤ f
      ∧ (∀ p, occurrences p (adjacentPairs (tokens s)) ≤ f)
      ∧ (∀ p, occurrences p (adjacentPairs (tokens s)) = f →
           firstIndex (a, b) (adjacentPairs (tokens s))
           ≤ firstIndex p (adjacentPairs (tokens s)))
      ∧ tokens t = mergeSpec a b (tokens s).
Proof.
  induction 1 as [|tks idx a b f rest Hab Hf Hmax Hfirst Hge _ _ IH];
    intros prev Hprev i s t Hs Ht.
  - destruct i; done.
  - destruct i as [|i].
    + simpl in Hs, Ht. injection Hs as <-. injection Ht as <-.
      rewrite Hprev. by exists a, b, f.
    + exact (IH (mkStep idx (Some [a; b]) (Some f) (Some (a ++ b))
                   (mergeSpec a b tks)) eq_refl i s t Hs Ht).
Qed.

Lemma splitChars_js_string (text : list Z) :
  js_string text → Forall js_string (Simple.splitChars text).
Proof.
  unfold Simple.splitChars, js_string. induction 1 as [|u text Hu _ IH]; [done|].
  cbn [map]. apply Forall_cons. split; [|done].
  destruct (u =? 10)%Z; repeat constructor; lia.
Qed.

Lemma Simple_runBPE_spec (text : list Z) (maxMerges : option Z) :
  js_string text → text ≠ [] →
  ∃ rest,
    Simple.runBPE text maxMerges
    = Some (mkResult (mkStep 0 None None None (Simple.splitChars text) :: rest))
    ∧ SimpleTrace maxMerges (Simple.splitChars text) 1 rest.
Proof.
  intros Hjs Hne. unfold Simple.runBPE.
  destruct text as [|u text]; [done|]. cbn [length Nat.eqb].
  destruct (Simple_loop_Trace (S (length (Simple.splitChars (u :: text))))
              maxMerges (Simple.splitChars (u :: text)) 1
              [mkStep 0 None None None (Simple.splitChars (u :: text))]
              (splitChars_js_string _ Hjs) ltac:(lia)) as (rest & -> & Htr).
  by exists rest.
Qed.

(** X10: the key of the character-level engine is read back exactly as the
    pair it was made from, for all strings: quotes, backslashes, control
    characters, U+0000 and unpaired surrogates included; so two different
    pairs never share a key. *)
Theorem X10_json_key_round_trip (a b a' b' : list Z) :
  js_string a → js_string b → js_string a' → js_string b' →
  JSON_parse (JSON_stringify [a; b]) = Some [a; b]
  ∧ (JSON_stringify [a; b] = JSON_stringify [a'; b'] → a = a' ∧ b = b').
Proof.
  intros Ha Hb Ha' Hb'. split; [by apply JSON_parse_stringify|].
  intros Heq.
  assert (E : Some [a; b] = Some [a'; b']).
  { rewrite <- (JSON_parse_stringify a b), <- (JSON_parse_stringify a' b')
      by done. by rewrite Heq. }
  by injection E as -> ->.
Qed.

Lemma X10_json_key_round_trip_witness :
  let a := [34; 92; 0; 10; 56832]%Z in
  let b := [55357; 56832; 47]%Z in
  js_string a ∧ js_string b
  ∧ JSON_parse (JSON_stringify [a; b]) = Some [a; b].
Proof.
  intros a b.
  assert (Ha : js_string a) by by apply (bool_decide_unpack _).
  assert (Hb : js_string b) by by apply (bool_decide_unpack _).
  split; [exact Ha|]. split; [exact Hb|].
  exact (proj1 (X10_json_key_round_trip a b a b Ha Hb Ha Hb)).
Defined.

(** X11: the character-level engine returns a trace for every string; it
    is empty exactly for the empty string; step 0 has one token per code
    unit, a line feed shown as backslash-n; the step at position [i] has
    [stepIndex = i], and the tokens of every step concatenate to the text
    with its line feeds so replaced. *)
Theorem X11_simple_trace (text : list Z) (maxMerges : option Z) :
  js_string text →
  ∃ r, Simple.runBPE text maxMerges = Some r
       ∧ (steps r = [] ↔ text = [])
       ∧ (∀ s0, steps r !! 0 = Some s0 →
            tokens s0 = map (fun u => if (u =? 10)%Z then [92; 110]%Z else [u]) text
            ∧ length (tokens s0) = length text)
       ∧ ∀ i s, steps r !! i = Some s →
           stepIndex s = i
           ∧ concat (tokens s)
             = flat_map (fun u => if (u =? 10)%Z then [92; 110]%Z else [u]) text.
Proof.
  intros Hjs. destruct (decide (text = [])) as [->|Hne].
  { exists (mkResult []). done. }
  destruct (Simple_runBPE_spec text maxMerges Hjs Hne) as (rest & Hr & Htr).
  eexists. split; [exact Hr|]. cbn [steps]. split; [done|].
  assert (Hcat : concat (Simple.splitChars text)
                 = flat_map (fun u => if (u =? 10)%Z then [92; 110]%Z else [u]) text).
  { unfold Simple.splitChars. by rewrite flat_map_concat_map. }
  split.
  - intros s0 [= <-]. cbn [tokens]. split; [done|].
    unfold Simple.splitChars. by rewrite length_map.
  - intros [|j] s Hs; simpl in Hs.
    + by injection Hs as <-.
    + destruct (SimpleTrace_steps _ _ _ _ Htr j s Hs) as [-> ->]. done.
Qed.

Lemma X11_simple_trace_witness :
  js_string text_hello
  ∧ ∃ r, Simple.runBPE text_hello None = Some r ∧ (steps r = [] ↔ text_hello = []).
Proof.
  assert (H : js_string text_hello) by by apply (bool_decide_unpack _).
  split; [exact H|].
  destruct (X11_simple_trace text_hello None H) as (r & Hr & Hiff & _).
  by exists r.
Defined.

(** X12: in the character-level engine every step after step 0 merges, in
    the token list of the step before, the pair with the highest number of
    adjacent occurrences (at least 2), the first met in the scan among the
    pairs with that number; its tokens are the merge pass of that pair over
    the previous tokens, and they are strictly fewer. *)
Theorem X12_simple_merge_steps (text : list Z) (maxMerges : option Z) :
  js_string text →
  ∃ r, Simple.runBPE text maxMerges = Some r
       ∧ ∀ i s t, steps r !! i = Some s → steps r !! S i = Some t →
           ∃ a b f,
             mergedPair t = Some [a; b] ∧ frequency t = Some f
             ∧ newToken t = Some (a ++ b)
             ∧ (a, b) ∈ adjacentPairs (tokens s)
             ∧ f = occurrences (a, b) (adjacentPairs (tokens s)) ∧ 2 ≤ f
             ∧ (∀ p, occurrences p (adjacentPairs (tokens s)) ≤ f)
             ∧ (∀ p, occurrences p (adjacentPairs (tokens s)) = f →
                  firstIndex (a, b) (adjacentPairs (tokens s))
                  ≤ firstIndex p (adjacentPairs (tokens s)))
             ∧ Simple.mergePair (tokens s) [a; b] = Some (tokens t)
             ∧ length (tokens t) < length (tokens s).
Proof.
  intros Hjs. destruct (decide (text = [])) as [->|Hne].
  { exists (mkResult []). split; [done|]. intros i s t Hs. done. }
  destruct (Simple_runBPE_spec text maxMerges Hjs Hne) as (rest & Hr & Htr).
  eexists. split; [exact Hr|]. cbn [steps]. intros i s t Hs Ht.
  destruct (SimpleTrace_consecutive _ _ _ _ Htr
              (mkStep 0 None None None (Simple.splitChars text)) eq_refl
              i s t Hs Ht)
    as (a & b & f & Hp & Hfr & Hn & Hab & Hf & Hge & Hmax & Hfirst & Htt).
  exists a, b, f. do 8 (split; [done|]). split.
  - by rewrite Simple_mergePair_spec, Htt.
  - rewrite Htt. pose proof (mergeSpec_length a b (tokens s)).
    pose proof (mergeCount_pos a b (tokens s) Hab). lia.
Qed.

Lemma X12_simple_merge_steps_witness :
  js_string text_hello
  ∧ ∃ r s t, Simple.runBPE text_hello None = Some r
             ∧ steps r !! 0 = Some s ∧ steps r !! 1 = Some t
             ∧ length (tokens t) < length (tokens s).
Proof.
  assert (H : js_string text_hello) by by apply (bool_decide_unpack _).
  split; [exact H|].
  destruct (X12_simple_merge_steps text_hello None H) as (r & Hr & Hst).
  assert (Hrun : ∃ s t rest,
            Simple.runBPE text_hello None = Some (mkResult (s :: t :: rest)))
    by (vm_compute; eauto).
  destruct Hrun as (s & t & rest & Hrun). rewrite Hrun in Hr.
  injection Hr as <-. exists (mkResult (s :: t :: rest)), s, t.
  split; [exact Hrun|]. split; [done|]. split; [done|].
  destruct (Hst 0 s t eq_refl eq_refl) as (a & b & f & H').
  apply H'.
Defined.

(** ** The two engines on one word *)

Lemma codePoints_no_surrogate (s : list Z) :
  Forall (fun c => c < 0xD800)%Z s → codePoints s = s.
Proof.
  induction 1 as [|c s Hc _ IH]; [done|].
  rewrite codePoints_single, IH; [done|].
  intros [Hh _]. unfold isHighSurrogate in Hh. lia.
Qed.

Lemma encodeChunk_visible (s : list Z) :
  Forall (fun c => 33 <= c <= 126)%Z s →
  encodeChunk s = map (fun c => [c]) s.
Proof.
  intros Hs. unfold encodeChunk, TextEncoder_encode.
  rewrite codePoints_no_surrogate
    by (eapply Forall_impl; [exact Hs|]; simpl; intros; lia).
  induction Hs as [|c s Hc _ IH]; [done|].
  cbn [flat_map]. unfold scalarValue at 1, utf8 at 1.
  unfold isHighSurrogate, isLowSurrogate.
  destruct (Z.leb_spec 0xD800 c); [lia|].
  destruct (Z.leb_spec 0xDC00 c); [lia|]. cbn [andb orb].
  destruct (Z.ltb_spec c 0x80); [|lia]. cbn [app map]. rewrite IH. f_equal.
  rewrite byteToken_spec by lia. unfold specTable, visibleByte.
  destruct (Z.leb_spec 33 c); [|lia]. destruct (Z.leb_spec c 126); [|lia].
  done.
Qed.

Lemma splitChars_visible (s : list Z) :
  Forall (fun c => 33 <= c <= 126)%Z s →
  Simple.splitChars s = map (fun c => [c]) s.
Proof.
  unfold Simple.splitChars. induction 1 as [|c s Hc _ IH]; [done|].
  cbn [map]. rewrite IH. destruct (Z.eqb_spec c 10); [lia|done].
Qed.

(** X13: on a word of visible ASCII letters (not starting with an
    apostrophe) the byte-level engine and the character-level engine return
    the same trace. *)
Theorem X13_engines_agree (isLetter isNumber : Z → bool) (text : list Z)
    (maxMerges : option Z) :
  head text ≠ Some 39%Z →
  Forall (fun c => (33 <= c <= 126)%Z ∧ isLetter c = true) text →
  runBPE isLetter isNumber text maxMerges = Simple.runBPE text maxMerges.
Proof.
  intros Hhead Hall. destruct (decide (text = [])) as [->|Hne]; [done|].
  assert (Hvis : Forall (fun c => 33 <= c <= 126)%Z text).
  { eapply Forall_impl; [exact Hall|]. by intros c [? _]. }
  assert (Hjs : js_string text).
  { eapply Forall_impl; [exact Hvis|]. simpl. intros. lia. }
  assert (Hcps : codePoints text = text).
  { apply codePoints_no_surrogate. eapply Forall_impl; [exact Hvis|].
    simpl. intros. lia. }
  destruct (runBPE_spec isLetter isNumber text maxMerges Hne) as (rest & -> & Htr).
  destruct (Simple_runBPE_spec text maxMerges Hjs Hne) as (rest' & -> & Htr').
  assert (Hinit : initialChunks isLetter isNumber text = [encodeChunk text]).
  { destruct text as [|c s]; [done|]. unfold initialChunks.
    rewrite (String_match_word isLetter isNumber (c :: s) c s); try done.
    - simpl in Hhead. congruence.
    - apply Forall_cons in Hall as [_ Hs]. eapply Forall_impl; [exact Hs|].
      by intros c' [_ ?].
    - left. by apply Forall_cons in Hall as [[_ ?] _]. }
  rewrite Hinit in *. cbn [concat]. rewrite app_nil_r.
  rewrite encodeChunk_visible, splitChars_visible in * by done.
  do 3 f_equal. eapply SimpleTrace_det; [|exact Htr'].
  by eapply Trace_single.
Qed.

Lemma X13_engines_agree_witness :
  let text := [98; 97; 110; 97; 110; 97]%Z in
  head text ≠ Some 39%Z
  ∧ Forall (fun c => (33 <= c <= 126)%Z ∧ latin1Letter c = true) text
  ∧ runBPE latin1Letter latin1Number text None = Simple.runBPE text None.
Proof.
  intros text.
  assert (H1 : head text ≠ Some 39%Z) by done.
  assert (H2 : Forall (fun c => (33 <= c <= 126)%Z ∧ latin1Letter c = true) text).
  { repeat constructor; lia. }
  split; [exact H1|]. split; [exact H2|].
  exact (X13_engines_agree latin1Letter latin1Number text None H1 H2).
Defined.
